(** * check-apphash: the per-height root reconciliation engine

    A shallow embedding of the Go program that tails CometBFT commit
    logs, records the application hash every pod reports at every block
    height and stops the process on the first mismatch.

    The repository holds four revisions of the same [main.go].  The most
    recent one (the revision with [consistentRecords] and
    [knownRootHashesString], the chain-restart branch commented out) is
    embedded at top level; the revision kept as [src/main.go], whose
    chain-restart branch is still live, is embedded in [Module MainGo]. *)

From Stdlib Require Import ZArith Ascii String DecimalString DecimalPos.
From stdpp Require Import base option list gmap strings.

Local Open Scope Z_scope.

(** ** Strings and [fmt.Sprintf] *)

(** A Go string is a byte sequence; [string] is a list of 8-bit [ascii]. *)

Definition nl : string := String (ascii_of_nat 10) EmptyString.

(** The verb [%d] applied to an [int]. *)
Definition itoa (n : Z) : string := NilEmpty.string_of_int (Z.to_int n).

(** ** Data model *)

Module LogData.
Record t : Type := mk {
  Height : Z;
  Hash : string;
  Root : string;
  NumTxs : Z;
  PodName : string
}.
End LogData.

Module RootHashRecord.
Record t : Type := mk {
  PodName : string;
  Root : string
}.
End RootHashRecord.

#[global] Instance RootHashRecord_eq_dec : EqDecision RootHashRecord.t.
Proof. solve_decision. Defined.

#[global] Instance LogData_eq_dec : EqDecision LogData.t.
Proof. solve_decision. Defined.

Module LogEntry.
Record t : Type := mk {
  metadata : gmap string string;
  payload : string
}.
End LogEntry.

(** What the worker does to the outside world, in program order. *)
Inductive Effect : Type :=
  | LogPrint (msg : string)        (* log.Print(msg) *)
  | PostToDiscord (msg : string)   (* postToDiscord(msg) *)
  | LogFatal (msg : string).       (* log.Fatal(msg): print, then os.Exit(1) *)

(** The worker either keeps its [rootCache] and goes on to the next log
    entry, or the process is gone: [log.Fatal] ends it with status 1. *)
Inductive Proc : Type :=
  | Running (rootCache : gmap Z (list RootHashRecord.t))
  | Exited (code : Z).

(** ** The helpers of the current revision *)

(** The [for record := range records] loop of [consistentRecords]. *)
Fixpoint consistentLoop (current : RootHashRecord.t)
    (records : list RootHashRecord.t) : bool :=
  match records with
  | [] => true
  | r :: rest =>
      if negb (String.eqb (RootHashRecord.Root current) (RootHashRecord.Root r))
      then false
      else consistentLoop current rest
  end.

Definition consistentRecords (current : RootHashRecord.t)
    (records : list RootHashRecord.t) : bool :=
  if (length records =? 0)%nat then true
  else consistentLoop current records.

(** [fmt.Sprintf("%s: %s\n", r.PodName, r.Root)]. *)
Definition recordLine (r : RootHashRecord.t) : string :=
  RootHashRecord.PodName r +:+ ": " +:+ RootHashRecord.Root r +:+ nl.

(** [s += recordLine] for every record, starting from the empty string. *)
Definition knownRootHashesString (records : list RootHashRecord.t) : string :=
  fold_left (fun s r => s +:+ recordLine r) records EmptyString.

(** ** The body of the tm worker loop, after a line has been parsed *)

Definition recordOf (commitLog : LogData.t) : RootHashRecord.t :=
  RootHashRecord.mk (LogData.PodName commitLog) (LogData.Root commitLog).

Definition log_msg (commitLog : LogData.t) : string :=
  LogData.PodName commitLog +:+ ", at height " +:+ itoa (LogData.Height commitLog)
    +:+ ", has apphash " +:+ LogData.Root commitLog.

Definition discord_msg (commitLog : LogData.t) : string :=
  "**" +:+ LogData.PodName commitLog +:+ "**, at height **"
    +:+ itoa (LogData.Height commitLog) +:+ "**, has apphash _"
    +:+ LogData.Root commitLog +:+ "_".

(** The literal of [commitLog.Height%1000 == 0]. *)
Definition heightModulus : Z := 1000.

(** Go's [%] truncates towards zero: [Z.rem]. *)
Definition progressDue (commitLog : LogData.t) : bool :=
  Z.rem (LogData.Height commitLog) heightModulus =? 0.

(** The status line and, every [heightModulus] heights, the notice. *)
Definition statusEffects (commitLog : LogData.t) : list Effect :=
  LogPrint (log_msg commitLog)
    :: (if progressDue commitLog then [PostToDiscord (discord_msg commitLog)] else []).

Definition err_str (height : Z) (prev : list RootHashRecord.t) : string :=
  ("ROOT MISMATCH DETECTED AT BLOCK " +:+ itoa height) +:+ nl
    +:+ knownRootHashesString prev.

Definition disc_msg (height : Z) (prev : list RootHashRecord.t) : string :=
  "@erwanor : " +:+ err_str height prev.

Definition mismatchEffects (height : Z) (prev : list RootHashRecord.t) : list Effect :=
  [PostToDiscord (disc_msg height prev); LogFatal (err_str height prev)].

Definition handleCommit (rootCache : gmap Z (list RootHashRecord.t))
    (commitLog : LogData.t) : list Effect * Proc :=
  let record := recordOf commitLog in
  let height := LogData.Height commitLog in
  match rootCache !! height with
  | Some prev =>
      if negb (consistentRecords record prev)
      then (statusEffects commitLog ++ mismatchEffects height prev, Exited 1)
      else (statusEffects commitLog,
            Running (<[height := prev ++ [record]]> rootCache))
  | None =>
      (statusEffects commitLog, Running (<[height := [record]]> rootCache))
  end.

(** The [for logEntry := range commitLogs] loop over events already
    parsed: stops at the first [log.Fatal]. *)
Fixpoint runCommits (rootCache : gmap Z (list RootHashRecord.t))
    (events : list LogData.t) : list Effect * Proc :=
  match events with
  | [] => ([], Running rootCache)
  | commitLog :: rest =>
      match handleCommit rootCache commitLog with
      | (out, Running rootCache') =>
          let '(out', p) := runCommits rootCache' rest in (out ++ out', p)
      | (out, Exited code) => (out, Exited code)
      end
  end.

(** ** The record extractor: [parseCommitLog]

    The pattern is
    [finalizing commit of block\s+module=consensus height=(\d+)
     hash=([0-9a-fA-F]+) root=([0-9a-fA-F]+) num_txs=(\d+)]
    and [FindStringSubmatch] returns the leftmost match, every [+]
    greedy.  All its atoms are ASCII, so matching bytes is matching
    runes. *)

Definition charCode (c : ascii) : N := N_of_ascii c.

(** [\s] is [[\t\n\f\r ]]. *)
Definition isSpace (c : ascii) : bool :=
  let n := charCode c in
  ((n =? 9) || (n =? 10) || (n =? 12) || (n =? 13) || (n =? 32))%N.

(** [\d] is [[0-9]]. *)
Definition isDigit (c : ascii) : bool :=
  let n := charCode c in ((48 <=? n) && (n <=? 57))%N.

(** [[0-9a-fA-F]]. *)
Definition isHex (c : ascii) : bool :=
  let n := charCode c in
  (((48 <=? n) && (n <=? 57)) || ((97 <=? n) && (n <=? 102))
   || ((65 <=? n) && (n <=? 70)))%N.

(** Match the literal [p] at the head of [s]; the rest of [s] is returned. *)
Fixpoint lit (p s : string) : option string :=
  match p with
  | EmptyString => Some s
  | String a p' =>
      match s with
      | String b s' => if Ascii.eqb a b then lit p' s' else None
      | EmptyString => None
      end
  end.

(** The longest prefix of [s] inside the class, and what follows it. *)
Fixpoint span (cls : ascii -> bool) (s : string) : string * string :=
  match s with
  | String c s' =>
      if cls c then let '(r, t) := span cls s' in (String c r, t)
      else (EmptyString, s)
  | EmptyString => (EmptyString, EmptyString)
  end.

(** [cls+], greedy. *)
Definition plus (cls : ascii -> bool) (s : string) : option (string * string) :=
  match span cls s with
  | (EmptyString, _) => None
  | (r, t) => Some (r, t)
  end.

Definition marker : string := "finalizing commit of block".

(** The four capture groups of a match that starts at the head of [s]. *)
Definition matchHere (s : string) : option (string * string * string * string) :=
  s1 ← lit marker s;
  '(_, s2) ← plus isSpace s1;
  s3 ← lit "module=consensus height=" s2;
  '(height, s4) ← plus isDigit s3;
  s5 ← lit " hash=" s4;
  '(hash, s6) ← plus isHex s5;
  s7 ← lit " root=" s6;
  '(root, s8) ← plus isHex s7;
  s9 ← lit " num_txs=" s8;
  '(numTxs, _) ← plus isDigit s9;
  Some (height, hash, root, numTxs).

(** [re.FindStringSubmatch]: the match at the leftmost position. *)
Fixpoint FindStringSubmatch (s : string)
    : option (string * string * string * string) :=
  match matchHere s with
  | Some m => Some m
  | None =>
      match s with
      | String _ s' => FindStringSubmatch s'
      | EmptyString => None
      end
  end.

(** [strconv.Atoi] on a 64-bit target. *)
Inductive NumError : Type := ErrSyntax | ErrRange.

Definition maxInt : Z := 2 ^ 63 - 1.
Definition minInt : Z := - 2 ^ 63.

Definition digitVal (c : ascii) : Z := Z.of_N (charCode c) - 48.

Fixpoint digitsValue (acc : Z) (s : string) : Z :=
  match s with
  | EmptyString => acc
  | String c s' => digitsValue (acc * 10 + digitVal c) s'
  end.

Fixpoint allChars (cls : ascii -> bool) (s : string) : bool :=
  match s with
  | EmptyString => true
  | String c s' => cls c && allChars cls s'
  end.

(** An optional sign, then decimal digits only, then the range check. *)
Definition Atoi (s : string) : Z + NumError :=
  let '(neg, ds) :=
    match s with
    | String c r =>
        if Ascii.eqb c "-" then (true, r)
        else if Ascii.eqb c "+" then (false, r)
        else (false, s)
    | EmptyString => (false, s)
    end in
  match ds with
  | EmptyString => inr ErrSyntax
  | _ =>
      if allChars isDigit ds then
        let v := if neg : bool then - digitsValue 0 ds else digitsValue 0 ds in
        if (minInt <=? v) && (v <=? maxInt) then inl v else inr ErrRange
      else inr ErrSyntax
  end.

Inductive ParseError : Type :=
  | NoMatch                           (* "no match" *)
  | ParsingHeight (e : NumError)      (* "parsing height: ..." *)
  | ParsingNumTxs (e : NumError).     (* "parsing num_txs: ..." *)

Definition parseCommitLog (podName logEntry : string) : LogData.t + ParseError :=
  match FindStringSubmatch logEntry with
  | None => inr NoMatch
  | Some (m1, m2, m3, m4) =>
      match Atoi m1 with
      | inr e => inr (ParsingHeight e)
      | inl height =>
          let hash := m2 in
          let root := m3 in
          match Atoi m4 with
          | inr e => inr (ParsingNumTxs e)
          | inl numTxs => inl (LogData.mk height hash root numTxs podName)
          end
      end
  end.

(** ** The tm worker loop over raw log entries *)

Definition handleEntry (rootCache : gmap Z (list RootHashRecord.t))
    (logEntry : LogEntry.t) : list Effect * Proc :=
  match LogEntry.metadata logEntry !! "pod_name" with
  | None => ([], Running rootCache)                      (* continue *)
  | Some podName =>
      match parseCommitLog podName (LogEntry.payload logEntry) with
      | inr _ => ([], Running rootCache)                 (* continue *)
      | inl commitLog => handleCommit rootCache commitLog
      end
  end.

Fixpoint tmWorkerLoop (rootCache : gmap Z (list RootHashRecord.t))
    (commitLogs : list LogEntry.t) : list Effect * Proc :=
  match commitLogs with
  | [] => ([], Running rootCache)
  | logEntry :: rest =>
      match handleEntry rootCache logEntry with
      | (out, Running rootCache') =>
          let '(out', p) := tmWorkerLoop rootCache' rest in (out ++ out', p)
      | (out, Exited code) => (out, Exited code)
      end
  end.

(** The commit event a log entry carries, if any. *)
Definition commitOf (logEntry : LogEntry.t) : option LogData.t :=
  match LogEntry.metadata logEntry !! "pod_name" with
  | None => None
  | Some podName =>
      match parseCommitLog podName (LogEntry.payload logEntry) with
      | inr _ => None
      | inl commitLog => Some commitLog
      end
  end.

(** ** The revision kept as [src/main.go]

    Same loop, with a [confirmedHeight] and a live chain-restart branch;
    the mismatch test looks at [prev[0]] only and the notice is due every
    4320 heights. *)

Module MainGo.

Inductive Proc : Type :=
  | Running (rootCache : gmap Z (list RootHashRecord.t)) (confirmedHeight : Z)
  | Exited (code : Z)
  | Panicked (index len : nat).   (* index out of range [index] with length len *)

Definition progressDue (commitLog : LogData.t) : bool :=
  Z.rem (LogData.Height commitLog) 4320 =? 0.

Definition statusEffects (commitLog : LogData.t) : list Effect :=
  LogPrint (log_msg commitLog)
    :: (if progressDue commitLog then [PostToDiscord (discord_msg commitLog)] else []).

Definition restart_msg (height confirmedHeight : Z) (p0 p1 : RootHashRecord.t)
    : string :=
  "detected chain restart, current height=" +:+ itoa height
    +:+ ", previous tip: height=" +:+ itoa confirmedHeight +:+ ", "
    +:+ RootHashRecord.PodName p0 +:+ ":" +:+ RootHashRecord.Root p0 +:+ " and "
    +:+ RootHashRecord.PodName p1 +:+ ":" +:+ RootHashRecord.Root p1.

Definition err_str (height : Z) (p0 record : RootHashRecord.t) : string :=
  "root mismatch detected at height " +:+ itoa height +:+ ", between:" +:+ nl
    +:+ RootHashRecord.PodName p0 +:+ ": " +:+ RootHashRecord.Root p0 +:+ nl
    +:+ RootHashRecord.PodName record +:+ ": " +:+ RootHashRecord.Root record +:+ nl.

Definition handleCommit (rootCache : gmap Z (list RootHashRecord.t))
    (confirmedHeight : Z) (commitLog : LogData.t) : list Effect * Proc :=
  let record := recordOf commitLog in
  let height := LogData.Height commitLog in
  let out := statusEffects commitLog in
  match rootCache !! height with
  | Some prev =>
      if height <? confirmedHeight then
        match prev !! 0%nat, prev !! 1%nat with
        | Some p0, Some p1 =>
            (out ++ [PostToDiscord (restart_msg height confirmedHeight p0 p1)],
             Running {[height := [record]]} confirmedHeight)
        | None, _ => (out, Panicked 0 (length prev))
        | Some _, None => (out, Panicked 1 (length prev))
        end
      else
        match prev !! 0%nat with
        | None => (out, Panicked 0 (length prev))
        | Some p0 =>
            if negb (String.eqb (RootHashRecord.Root p0) (RootHashRecord.Root record))
            then (out ++ [PostToDiscord ("@erwanor : " +:+ err_str height p0 record);
                          LogFatal (err_str height p0 record)],
                  Exited 1)
            else (out, Running (<[height := prev ++ [record]]> rootCache) height)
        end
  | None => (out, Running (<[height := [record]]> rootCache) confirmedHeight)
  end.

Fixpoint runCommits (rootCache : gmap Z (list RootHashRecord.t))
    (confirmedHeight : Z) (events : list LogData.t) : list Effect * Proc :=
  match events with
  | [] => ([], Running rootCache confirmedHeight)
  | commitLog :: rest =>
      match handleCommit rootCache confirmedHeight commitLog with
      | (out, Running rootCache' confirmedHeight') =>
          let '(out', p) := runCommits rootCache' confirmedHeight' rest in
          (out ++ out', p)
      | (out, p) => (out, p)
      end
  end.

End MainGo.

(** ** Vocabulary for the statements *)

(** The loop body as a step relation, one rule per path through it. *)
Inductive Step (rootCache : gmap Z (list RootHashRecord.t)) (commitLog : LogData.t)
    : list Effect -> Proc -> Prop :=
  | StepFirst :
      rootCache !! LogData.Height commitLog = None ->
      Step rootCache commitLog (statusEffects commitLog)
        (Running (<[LogData.Height commitLog := [recordOf commitLog]]> rootCache))
  | StepAgree prev :
      rootCache !! LogData.Height commitLog = Some prev ->
      (forall r, r ∈ prev -> RootHashRecord.Root r = LogData.Root commitLog) ->
      Step rootCache commitLog (statusEffects commitLog)
        (Running (<[LogData.Height commitLog := prev ++ [recordOf commitLog]]> rootCache))
  | StepMismatch prev r :
      rootCache !! LogData.Height commitLog = Some prev ->
      r ∈ prev -> RootHashRecord.Root r ≠ LogData.Root commitLog ->
      Step rootCache commitLog
        (statusEffects commitLog ++ mismatchEffects (LogData.Height commitLog) prev)
        (Exited 1).

Inductive Exec (rootCache : gmap Z (list RootHashRecord.t))
    : list LogData.t -> list Effect -> Proc -> Prop :=
  | ExecDone : Exec rootCache [] [] (Running rootCache)
  | ExecNext commitLog rest out rootCache' out' p :
      Step rootCache commitLog out (Running rootCache') ->
      Exec rootCache' rest out' p ->
      Exec rootCache (commitLog :: rest) (out ++ out') p
  | ExecFatal commitLog rest out code :
      Step rootCache commitLog out (Exited code) ->
      Exec rootCache (commitLog :: rest) out (Exited code).

(** States the worker can be in after some events, starting empty. *)
Definition reachable (rootCache : gmap Z (list RootHashRecord.t)) : Prop :=
  exists events out, runCommits ∅ events = (out, Running rootCache).

(** No two events of the sequence report different roots at one height. *)
Definition conflictFree (events : list LogData.t) : Prop :=
  forall e1 e2, e1 ∈ events -> e2 ∈ events ->
    LogData.Height e1 = LogData.Height e2 -> LogData.Root e1 = LogData.Root e2.

(** [e] differs from an event already seen at its height. *)
Definition clashes (seen : list LogData.t) (e : LogData.t) : Prop :=
  exists e', e' ∈ seen /\ LogData.Height e' = LogData.Height e
             /\ LogData.Root e' ≠ LogData.Root e.

(** The reports of the events at height [h], in arrival order. *)
Definition eventsAt (h : Z) (events : list LogData.t) : list RootHashRecord.t :=
  recordOf <$> filter (fun e => LogData.Height e = h) events.

Definition groupAt (h : Z) (events : list LogData.t) : option (list RootHashRecord.t) :=
  match eventsAt h events with
  | [] => None
  | l => Some l
  end.

(** The cache holds exactly the events [seen], grouped by height. *)
Definition represents (rootCache : gmap Z (list RootHashRecord.t))
    (seen : list LogData.t) : Prop :=
  forall h, rootCache !! h = groupAt h seen.

Definition isFatal (eff : Effect) : bool :=
  match eff with LogFatal _ => true | _ => false end.

(** The notice that mentions the operator. *)
Definition isMismatchPost (eff : Effect) : bool :=
  match eff with
  | PostToDiscord msg => String.prefix "@erwanor : " msg
  | _ => false
  end.

Definition isAlert (eff : Effect) : bool := isFatal eff || isMismatchPost eff.

Definition countEffects (f : Effect -> bool) (out : list Effect) : nat :=
  length (List.filter f out).

(** The status lines (and notices) of a run of accepted events. *)
Definition statusOutput (events : list LogData.t) : list Effect :=
  flat_map statusEffects events.

(** A commit event with the fields the engine does not look at left blank. *)
Definition commitEvent (height : Z) (root podName : string) : LogData.t :=
  LogData.mk height EmptyString root 0 podName.

(** Two pods agree at height 100, a third one differs, a fourth event follows. *)
Definition exampleDivergence : list LogData.t :=
  [commitEvent 100 "aa" "nodeA"; commitEvent 100 "aa" "nodeB";
   commitEvent 100 "bb" "nodeC"; commitEvent 101 "dd" "nodeA"].

(** The language of the pattern of [parseCommitLog]. *)
Definition commitLine (ws height hash root numTxs post : string) : string :=
  marker +:+ ws +:+ "module=consensus height=" +:+ height +:+ " hash=" +:+ hash
    +:+ " root=" +:+ root +:+ " num_txs=" +:+ numTxs +:+ post.

Definition run (cls : ascii -> bool) (s : string) : Prop :=
  s ≠ EmptyString /\ allChars cls s = true.

Definition fields (ws height hash root numTxs : string) : Prop :=
  run isSpace ws /\ run isDigit height /\ run isHex hash /\ run isHex root
  /\ run isDigit numTxs.

(** A match of the pattern begins at the head of [s]. *)
Definition startsCommit (s : string) : Prop :=
  exists ws height hash root numTxs post,
    fields ws height hash root numTxs
    /\ s = commitLine ws height hash root numTxs post.

(** The line contains a match of the pattern. *)
Definition matchesGrammar (line : string) : Prop :=
  exists pre rest, line = pre +:+ rest /\ startsCommit rest.

(** No match of the pattern begins inside [pre] when [rest] follows it. *)
Definition leftmost (pre rest : string) : Prop :=
  forall pre1 pre2, pre = pre1 +:+ pre2 -> pre2 ≠ EmptyString ->
    ~ startsCommit (pre2 +:+ rest).

(** [s] does not go on with a character of the class. *)
Definition stopsRun (cls : ascii -> bool) (s : string) : Prop :=
  match s with
  | String c _ => cls c = false
  | EmptyString => True
  end.

Definition noDigitAhead (s : string) : Prop := stopsRun isDigit s.

(** The number a run of decimal digits writes. *)
Definition decimal (s : string) : Z := digitsValue 0 s.

(** ** The rest of the program *)

(** The body of the pd worker loop: an error entry is relayed to Discord
    as ["<pod>: <payload>"], or dropped with a local diagnostic when its
    labels carry no [pod_name]. *)
Definition handleErrorEntry (logEntry : LogEntry.t) : list Effect :=
  match LogEntry.metadata logEntry !! "pod_name" with
  | None => [LogPrint "pod name not found!"]                     (* continue *)
  | Some podName =>
      [PostToDiscord (podName +:+ ": " +:+ LogEntry.payload logEntry)]
  end.

(** [for logEntry := range errorLogs]. *)
Fixpoint pdWorkerLoop (errorLogs : list LogEntry.t) : list Effect :=
  match errorLogs with
  | [] => []
  | logEntry :: rest => handleErrorEntry logEntry ++ pdWorkerLoop rest
  end.

(** The head of [main]: every required variable is read with
    [os.Getenv], which gives the empty string for a variable that is not
    set; the first empty one is reported on standard output and the
    process exits with status 1. *)
Inductive Startup : Type :=
  | Refused (stdout : string) (code : Z)   (* fmt.Println(stdout); os.Exit(code) *)
  | Started.                               (* log.Print("log relayer starting up!") *)

Definition startup (Getenv : string -> string) : Startup :=
  if String.eqb (Getenv "GCP_PROJECT_ID") EmptyString
  then Refused "GCP PROJECT_ID is not set or empty" 1
  else if String.eqb (Getenv "DISCORD_WEBHOOK_URL") EmptyString
  then Refused "DISCORD_WEBHOOK_URL is unset or empty" 1
  else if String.eqb (Getenv "GOOGLE_APPLICATION_CREDENTIALS") EmptyString
  then Refused "GOOGLE_APPLICATION_CREDENTIALS is unset or empty" 1
  else if String.eqb (Getenv "GCP_CREDENTIALS") EmptyString
  then Refused "GCP_CREDENTIALS is unset or empty" 1
  else if String.eqb (Getenv "PENUMBRA_NETWORK") EmptyString
  then Refused "PENUMBRA_NETWORK is unset or empty" 1
  else Started.

(** The same head in [src/main.go]: no [PENUMBRA_NETWORK] yet. *)
Definition mainGoStartup (Getenv : string -> string) : Startup :=
  if String.eqb (Getenv "GCP_PROJECT_ID") EmptyString
  then Refused "GCP PROJECT_ID is not set or empty" 1
  else if String.eqb (Getenv "DISCORD_WEBHOOK_URL") EmptyString
  then Refused "DISCORD_WEBHOOK_URL is unset or empty" 1
  else if String.eqb (Getenv "GOOGLE_APPLICATION_CREDENTIALS") EmptyString
  then Refused "GOOGLE_APPLICATION_CREDENTIALS is unset or empty" 1
  else if String.eqb (Getenv "GCP_CREDENTIALS") EmptyString
  then Refused "GCP_CREDENTIALS is unset or empty" 1
  else Started.

(** ** More vocabulary *)

(** The run over [events] from the empty cache ends without [log.Fatal]. *)
Definition accepted (events : list LogData.t) : Prop :=
  exists out rootCache, runCommits ∅ events = (out, Running rootCache).

(** How many records the cache holds, all heights together. *)
Definition totalRecords (rootCache : gmap Z (list RootHashRecord.t)) : nat :=
  map_fold (fun _ records n => (length records + n)%nat) 0%nat rootCache.

(** Every cached list is non-empty and carries one root. *)
Definition cacheInv (rootCache : gmap Z (list RootHashRecord.t)) : Prop :=
  forall h prev, rootCache !! h = Some prev ->
    prev ≠ [] /\ forall r1 r2, r1 ∈ prev -> r2 ∈ prev ->
                   RootHashRecord.Root r1 = RootHashRecord.Root r2.

(** Heights that start at [low] or above and never go down. *)
Fixpoint nonDecreasingFrom (low : Z) (events : list LogData.t) : Prop :=
  match events with
  | [] => True
  | e :: rest => low <= LogData.Height e /\ nonDecreasingFrom (LogData.Height e) rest
  end.

(** States of the loop of [src/main.go], starting empty with
    [confirmedHeight] 0. *)
Definition mainGoReachable (rootCache : gmap Z (list RootHashRecord.t))
    (confirmedHeight : Z) : Prop :=
  exists events out,
    MainGo.runCommits ∅ 0 events = (out, MainGo.Running rootCache confirmedHeight).

Definition isLogPrint (eff : Effect) : bool :=
  match eff with LogPrint _ => true | _ => false end.

Definition isPost (eff : Effect) : bool :=
  match eff with PostToDiscord _ => true | _ => false end.

(** The messages sent to Discord, in order. *)
Definition discordPosts (out : list Effect) : list string :=
  omap (fun eff => match eff with PostToDiscord msg => Some msg | _ => None end) out.

(** What the pd worker sends for an entry, if anything. *)
Definition relayed (logEntry : LogEntry.t) : option string :=
  match LogEntry.metadata logEntry !! "pod_name" with
  | None => None
  | Some podName => Some (podName +:+ ": " +:+ LogEntry.payload logEntry)
  end.

(** A log line as CometBFT writes it: one space after the marker, the
    numbers in decimal as [%d] prints them, nothing after [num_txs]. *)
Definition renderCommit (height : Z) (hash root : string) (numTxs : Z) : string :=
  commitLine " " (itoa height) hash root (itoa numTxs) EmptyString.

(** * Properties *)

(** ** [consistentRecords] and one step of the loop *)

Section Engine.
Implicit Types (rootCache : gmap Z (list RootHashRecord.t)).
Implicit Types (e commitLog : LogData.t) (prev : list RootHashRecord.t).
Implicit Types (events seen : list LogData.t).

Lemma consistentLoop_Forall (current : RootHashRecord.t) prev :
  consistentLoop current prev = true
  <-> Forall (fun r => RootHashRecord.Root r = RootHashRecord.Root current) prev.
Proof.
  induction prev as [|r prev IH]; simpl.
  - split; [constructor | reflexivity].
  - destruct (String.eqb_spec (RootHashRecord.Root current) (RootHashRecord.Root r))
      as [Heq|Hne]; simpl.
    + rewrite IH. split.
      * intros H. constructor; [symmetry; exact Heq | exact H].
      * intros H. inversion H; assumption.
    + split; [discriminate|].
      intros H. inversion H as [|? ? Hr _]; subst. congruence.
Qed.

Lemma consistentRecords_Forall (current : RootHashRecord.t) prev :
  consistentRecords current prev = true
  <-> Forall (fun r => RootHashRecord.Root r = RootHashRecord.Root current) prev.
Proof.
  unfold consistentRecords. destruct prev as [|r prev].
  - simpl. split; [constructor | reflexivity].
  - simpl Nat.eqb. cbv iota. apply consistentLoop_Forall.
Qed.

Lemma consistentRecords_false (current : RootHashRecord.t) prev :
  consistentRecords current prev = false
  <-> exists r, r ∈ prev /\ RootHashRecord.Root r ≠ RootHashRecord.Root current.
Proof.
  split.
  - intros Hf.
    assert (Hn : ~ Forall (fun r => RootHashRecord.Root r = RootHashRecord.Root current) prev).
    { rewrite <- consistentRecords_Forall. congruence. }
    apply not_Forall_Exists in Hn; [|intros r; apply _].
    apply Exists_exists in Hn. exact Hn.
  - intros (r & Hin & Hne).
    destruct (consistentRecords current prev) eqn:Hc; [|reflexivity].
    apply consistentRecords_Forall in Hc.
    rewrite Forall_forall in Hc. destruct Hne. apply Hc, Hin.
Qed.

Lemma handleCommit_first rootCache e :
  rootCache !! LogData.Height e = None ->
  handleCommit rootCache e
  = (statusEffects e, Running (<[LogData.Height e := [recordOf e]]> rootCache)).
Proof. intros H. unfold handleCommit. rewrite H. reflexivity. Qed.

Lemma handleCommit_agree rootCache e prev :
  rootCache !! LogData.Height e = Some prev ->
  Forall (fun r => RootHashRecord.Root r = LogData.Root e) prev ->
  handleCommit rootCache e
  = (statusEffects e,
     Running (<[LogData.Height e := prev ++ [recordOf e]]> rootCache)).
Proof.
  intros H Hall. unfold handleCommit. rewrite H.
  replace (consistentRecords (recordOf e) prev) with true; [reflexivity|].
  symmetry. apply consistentRecords_Forall. exact Hall.
Qed.

Lemma handleCommit_mismatch rootCache e prev :
  rootCache !! LogData.Height e = Some prev ->
  ~ Forall (fun r => RootHashRecord.Root r = LogData.Root e) prev ->
  handleCommit rootCache e
  = (statusEffects e ++ mismatchEffects (LogData.Height e) prev, Exited 1).
Proof.
  intros H Hall. unfold handleCommit. rewrite H.
  destruct (consistentRecords (recordOf e) prev) eqn:Hc; [|reflexivity].
  destruct Hall. apply (consistentRecords_Forall (recordOf e)). exact Hc.
Qed.

(** The step relation and the function are the same thing. *)
Lemma Step_handleCommit rootCache e out p :
  Step rootCache e out p <-> handleCommit rootCache e = (out, p).
Proof.
  split.
  - intros [Hnone | prev Hsome Hall | prev r Hsome Hin Hne].
    + apply handleCommit_first; assumption.
    + apply handleCommit_agree; [assumption|]. apply Forall_forall. exact Hall.
    + apply handleCommit_mismatch; [assumption|].
      rewrite Forall_forall. intros Hall. apply Hne, Hall, Hin.
  - intros Heq. destruct (rootCache !! LogData.Height e) as [prev|] eqn:Hl.
    + destruct (consistentRecords (recordOf e) prev) eqn:Hc.
      * apply consistentRecords_Forall in Hc. simpl in Hc.
        rewrite (handleCommit_agree _ _ _ Hl Hc) in Heq.
        injection Heq as <- <-. apply StepAgree; [assumption|].
        apply Forall_forall. exact Hc.
      * pose proof Hc as Hc'. apply consistentRecords_false in Hc' as (r & Hin & Hne).
        unfold handleCommit in Heq. rewrite Hl, Hc in Heq. simpl in Heq.
        injection Heq as <- <-. eapply StepMismatch; eauto.
    + rewrite (handleCommit_first _ _ Hl) in Heq.
      injection Heq as <- <-. apply StepFirst. assumption.
Qed.

Lemma Exec_runCommits events : forall rootCache out p,
  Exec rootCache events out p <-> runCommits rootCache events = (out, p).
Proof.
  induction events as [|e events IH]; intros rootCache out p; simpl.
  - split.
    + intros H. inversion H. reflexivity.
    + intros [= <- <-]. constructor.
  - split.
    + intros H. inversion H as [| ? ? o c' o' ? Hs He | ? ? ? code Hs]; subst.
      * apply Step_handleCommit in Hs. rewrite Hs.
        apply IH in He. rewrite He. reflexivity.
      * apply Step_handleCommit in Hs. rewrite Hs. reflexivity.
    + destruct (handleCommit rootCache e) as [o [c'|code]] eqn:Hh.
      * destruct (runCommits c' events) as [o' p'] eqn:Hr.
        intros [= <- <-]. eapply ExecNext.
        -- apply Step_handleCommit. exact Hh.
        -- apply IH. exact Hr.
      * intros [= <- <-]. apply ExecFatal. apply Step_handleCommit. exact Hh.
Qed.

End Engine.

(** ** The cache is the event history grouped by height *)

Section History.
Implicit Types (rootCache : gmap Z (list RootHashRecord.t)).
Implicit Types (e : LogData.t) (prev : list RootHashRecord.t).
Implicit Types (events seen : list LogData.t).

Lemma eventsAt_snoc h seen e :
  eventsAt h (seen ++ [e])
  = eventsAt h seen ++ (if decide (LogData.Height e = h) then [recordOf e] else []).
Proof.
  unfold eventsAt. rewrite filter_app, fmap_app. f_equal.
  rewrite filter_cons, filter_nil. destruct (decide (LogData.Height e = h)); reflexivity.
Qed.

Lemma eventsAt_app h l1 l2 :
  eventsAt h (l1 ++ l2) = eventsAt h l1 ++ eventsAt h l2.
Proof. unfold eventsAt. rewrite filter_app, fmap_app. reflexivity. Qed.

Lemma elem_of_eventsAt h seen (r : RootHashRecord.t) :
  r ∈ eventsAt h seen
  <-> exists e', e' ∈ seen /\ LogData.Height e' = h /\ r = recordOf e'.
Proof.
  unfold eventsAt. rewrite list_elem_of_fmap. split.
  - intros (e' & -> & Hin). apply list_elem_of_filter in Hin as [Hh Hin]. eauto.
  - intros (e' & Hin & Hh & ->). exists e'. split; [reflexivity|].
    apply list_elem_of_filter. auto.
Qed.

Lemma groupAt_Some h seen prev :
  groupAt h seen = Some prev -> eventsAt h seen = prev /\ prev ≠ [].
Proof.
  unfold groupAt. destruct (eventsAt h seen) as [|r l]; [discriminate|].
  intros [= <-]. split; [reflexivity | discriminate].
Qed.

Lemma groupAt_None h seen : groupAt h seen = None -> eventsAt h seen = [].
Proof. unfold groupAt. destruct (eventsAt h seen); [reflexivity | discriminate]. Qed.

Lemma clashes_eventsAt seen e :
  clashes seen e
  <-> exists r, r ∈ eventsAt (LogData.Height e) seen
                /\ RootHashRecord.Root r ≠ LogData.Root e.
Proof.
  split.
  - intros (e' & Hin & Hh & Hne). exists (recordOf e'). split; [|exact Hne].
    apply elem_of_eventsAt. eauto.
  - intros (r & Hin & Hne). apply elem_of_eventsAt in Hin as (e' & Hin & Hh & ->).
    exists e'. auto.
Qed.

Lemma conflictFree_nil : conflictFree [].
Proof. intros e1 e2 H. apply elem_of_nil in H. destruct H. Qed.

Lemma conflictFree_snoc seen e :
  conflictFree seen -> ~ clashes seen e -> conflictFree (seen ++ [e]).
Proof.
  intros Hcf Hno e1 e2 H1 H2 Hh.
  apply elem_of_app in H1 as [H1|H1]; apply elem_of_app in H2 as [H2|H2];
    rewrite ?list_elem_of_singleton in *; subst.
  - apply Hcf; assumption.
  - destruct (decide (LogData.Root e1 = LogData.Root e)) as [|Hne]; [assumption|].
    destruct Hno. exists e1. auto.
  - destruct (decide (LogData.Root e2 = LogData.Root e)) as [Heq|Hne]; [auto|].
    destruct Hno. exists e2. auto.
  - reflexivity.
Qed.

Lemma conflictFree_clash seen e post :
  clashes seen e -> ~ conflictFree (seen ++ e :: post).
Proof.
  intros (e' & Hin & Hh & Hne) Hcf. apply Hne, Hcf; [| |exact Hh].
  - apply elem_of_app. left. exact Hin.
  - apply elem_of_app. right. apply elem_of_cons. left. reflexivity.
Qed.

Lemma represents_empty : represents ∅ [].
Proof. intros h. rewrite lookup_empty. reflexivity. Qed.

Lemma represents_unique rootCache rootCache' seen :
  represents rootCache seen -> represents rootCache' seen -> rootCache = rootCache'.
Proof. intros H H'. apply map_eq. intros h. rewrite H, H'. reflexivity. Qed.

(** Appending the record of [e] at its height is what [seen ++ [e]] asks. *)
Lemma represents_snoc rootCache seen e :
  represents rootCache seen ->
  represents
    (<[LogData.Height e := eventsAt (LogData.Height e) seen ++ [recordOf e]]> rootCache)
    (seen ++ [e]).
Proof.
  intros Hrep h. unfold groupAt. rewrite eventsAt_snoc.
  destruct (decide (LogData.Height e = h)) as [<-|Hne].
  - rewrite lookup_insert_eq.
    destruct (eventsAt (LogData.Height e) seen); reflexivity.
  - rewrite lookup_insert_ne by exact Hne. rewrite app_nil_r. apply Hrep.
Qed.

(** One step from a cache that represents [seen]. *)
Lemma handleCommit_represents rootCache seen e :
  represents rootCache seen ->
  (~ clashes seen e ->
   exists rootCache',
     handleCommit rootCache e = (statusEffects e, Running rootCache')
     /\ represents rootCache' (seen ++ [e]))
  /\ (clashes seen e ->
      handleCommit rootCache e
      = (statusEffects e
           ++ mismatchEffects (LogData.Height e) (eventsAt (LogData.Height e) seen),
         Exited 1)).
Proof.
  intros Hrep. pose proof (Hrep (LogData.Height e)) as Hl. split.
  - intros Hno. eexists. split; [|apply represents_snoc; exact Hrep].
    destruct (groupAt (LogData.Height e) seen) as [prev|] eqn:Hg.
    + apply groupAt_Some in Hg as [Hg _]. rewrite Hg.
      apply handleCommit_agree; [exact Hl|].
      apply Forall_forall. intros r Hin.
      destruct (decide (RootHashRecord.Root r = LogData.Root e)) as [|Hne]; [assumption|].
      destruct Hno. apply clashes_eventsAt. exists r. rewrite Hg. auto.
    + apply groupAt_None in Hg. rewrite Hg. simpl.
      apply handleCommit_first. exact Hl.
  - intros Hcl. apply clashes_eventsAt in Hcl as (r & Hin & Hne).
    destruct (groupAt (LogData.Height e) seen) as [prev|] eqn:Hg.
    + apply groupAt_Some in Hg as [Hg _]. rewrite Hg in Hin. rewrite Hg.
      apply handleCommit_mismatch; [exact Hl|].
      rewrite Forall_forall. intros Hall. apply Hne, Hall, Hin.
    + apply groupAt_None in Hg. rewrite Hg in Hin. apply elem_of_nil in Hin. destruct Hin.
Qed.

Lemma clashes_dec seen e : {clashes seen e} + {~ clashes seen e}.
Proof.
  destruct (consistentRecords (recordOf e) (eventsAt (LogData.Height e) seen)) eqn:Hc.
  - right. intros Hcl. apply clashes_eventsAt in Hcl.
    apply (consistentRecords_false (recordOf e)) in Hcl. congruence.
  - left. apply clashes_eventsAt.
    apply (consistentRecords_false (recordOf e)) in Hc. exact Hc.
Qed.

End History.

(** ** Whole runs *)

Section Runs.
Implicit Types (rootCache : gmap Z (list RootHashRecord.t)).
Implicit Types (e : LogData.t) (events seen pre post : list LogData.t).

Lemma runCommits_app pre : forall rootCache post,
  runCommits rootCache (pre ++ post)
  = match runCommits rootCache pre with
    | (out, Running rootCache') =>
        let '(out', p) := runCommits rootCache' post in (out ++ out', p)
    | (out, Exited code) => (out, Exited code)
    end.
Proof.
  induction pre as [|e pre IH]; intros rootCache post; simpl.
  - destruct (runCommits rootCache post). reflexivity.
  - destruct (handleCommit rootCache e) as [o [c1|code]]; [|reflexivity].
    rewrite IH. destruct (runCommits c1 pre) as [o1 [c2|code]].
    + destruct (runCommits c2 post) as [o2 p]. rewrite app_assoc. reflexivity.
    + reflexivity.
Qed.

Lemma statusOutput_app l1 l2 :
  statusOutput (l1 ++ l2) = statusOutput l1 ++ statusOutput l2.
Proof. unfold statusOutput. apply flat_map_app. Qed.

(** A conflict-free continuation is accepted whole. *)
Lemma run_accept events : forall rootCache seen,
  represents rootCache seen -> conflictFree (seen ++ events) ->
  exists rootCache',
    runCommits rootCache events = (statusOutput events, Running rootCache')
    /\ represents rootCache' (seen ++ events).
Proof.
  induction events as [|e events IH]; intros rootCache seen Hrep Hcf.
  - exists rootCache. rewrite app_nil_r. split; [reflexivity | exact Hrep].
  - assert (Hno : ~ clashes seen e).
    { intros Hcl. exact (conflictFree_clash _ _ _ Hcl Hcf). }
    destruct (handleCommit_represents rootCache seen e Hrep) as [Hok _].
    destruct (Hok Hno) as (c1 & Hstep & Hrep1).
    rewrite (cons_middle e seen events), app_assoc in Hcf.
    destruct (IH c1 (seen ++ [e]) Hrep1 Hcf) as (c2 & Hrun & Hrep2).
    exists c2. split.
    + simpl. rewrite Hstep, Hrun. reflexivity.
    + rewrite (cons_middle e seen events), app_assoc. exact Hrep2.
Qed.

(** The first clashing event stops the run, whatever follows it. *)
Lemma run_reject pre e post rootCache seen :
  represents rootCache seen -> conflictFree (seen ++ pre) -> clashes (seen ++ pre) e ->
  runCommits rootCache (pre ++ e :: post)
  = (statusOutput pre ++ statusEffects e
       ++ mismatchEffects (LogData.Height e) (eventsAt (LogData.Height e) (seen ++ pre)),
     Exited 1).
Proof.
  intros Hrep Hcf Hcl.
  destruct (run_accept pre rootCache seen Hrep Hcf) as (c1 & Hrun & Hrep1).
  rewrite runCommits_app, Hrun. simpl.
  destruct (handleCommit_represents c1 (seen ++ pre) e Hrep1) as [_ Hbad].
  rewrite (Hbad Hcl). reflexivity.
Qed.

(** Where a sequence with a conflict first goes wrong. *)
Lemma first_clash events : forall seen,
  conflictFree seen -> ~ conflictFree (seen ++ events) ->
  exists pre e post,
    events = pre ++ e :: post /\ conflictFree (seen ++ pre) /\ clashes (seen ++ pre) e.
Proof.
  induction events as [|e events IH]; intros seen Hcf Hbad.
  - rewrite app_nil_r in Hbad. contradiction.
  - destruct (clashes_dec seen e) as [Hcl|Hno].
    + exists [], e, events. rewrite app_nil_r. auto.
    + pose proof (conflictFree_snoc seen e Hcf Hno) as Hcf1.
      rewrite (cons_middle e seen events), app_assoc in Hbad.
      destruct (IH (seen ++ [e]) Hcf1 Hbad) as (pre & e' & post & -> & Hcf2 & Hcl).
      exists (e :: pre), e', post.
      rewrite (cons_middle e seen pre), app_assoc. auto.
Qed.

(** Only conflict-free sequences are accepted. *)
Lemma run_running_conflictFree events : forall rootCache seen out rootCache',
  represents rootCache seen -> conflictFree seen ->
  runCommits rootCache events = (out, Running rootCache') ->
  conflictFree (seen ++ events).
Proof.
  induction events as [|e events IH]; intros rootCache seen out c' Hrep Hcf Hrun.
  - rewrite app_nil_r. exact Hcf.
  - destruct (handleCommit_represents rootCache seen e Hrep) as [Hok Hbad].
    simpl in Hrun. destruct (clashes_dec seen e) as [Hcl|Hno].
    + rewrite (Hbad Hcl) in Hrun. discriminate.
    + destruct (Hok Hno) as (c1 & Hstep & Hrep1). rewrite Hstep in Hrun.
      destruct (runCommits c1 events) as [o1 p1] eqn:Hrun1.
      injection Hrun as _ ->.
      rewrite (cons_middle e seen events), app_assoc.
      eapply IH; [exact Hrep1 | apply conflictFree_snoc; assumption | exact Hrun1].
Qed.

End Runs.

(** ** Counting what a run emits *)

Section Effects.
Implicit Types (e : LogData.t) (out : list Effect).

Lemma countEffects_app f out1 out2 :
  countEffects f (out1 ++ out2) = (countEffects f out1 + countEffects f out2)%nat.
Proof. unfold countEffects. rewrite List.filter_app, length_app. reflexivity. Qed.

Lemma discord_msg_not_mismatch e : isMismatchPost (PostToDiscord (discord_msg e)) = false.
Proof. reflexivity. Qed.

Lemma countEffects_status f e :
  (forall msg, f (LogPrint msg) = false) ->
  f (PostToDiscord (discord_msg e)) = false ->
  countEffects f (statusEffects e) = 0%nat.
Proof.
  intros Hlog Hpost. unfold countEffects, statusEffects. simpl. rewrite Hlog.
  destruct (progressDue e); simpl; [rewrite Hpost|]; reflexivity.
Qed.

Lemma countEffects_statusOutput f events :
  (forall msg, f (LogPrint msg) = false) ->
  (forall e, f (PostToDiscord (discord_msg e)) = false) ->
  countEffects f (statusOutput events) = 0%nat.
Proof.
  intros Hlog Hpost. induction events as [|e events IH]; [reflexivity|].
  change (statusOutput (e :: events)) with (statusEffects e ++ statusOutput events).
  rewrite countEffects_app, countEffects_status by auto. exact IH.
Qed.

Lemma isFatal_statusOutput events : countEffects isFatal (statusOutput events) = 0%nat.
Proof. apply countEffects_statusOutput; reflexivity. Qed.

Lemma isMismatchPost_statusOutput events :
  countEffects isMismatchPost (statusOutput events) = 0%nat.
Proof. apply countEffects_statusOutput; reflexivity. Qed.

Lemma isAlert_statusOutput events : countEffects isAlert (statusOutput events) = 0%nat.
Proof. apply countEffects_statusOutput; reflexivity. Qed.

Lemma isFatal_mismatch h prev : countEffects isFatal (mismatchEffects h prev) = 1%nat.
Proof. reflexivity. Qed.

Lemma isMismatchPost_mismatch h prev :
  countEffects isMismatchPost (mismatchEffects h prev) = 1%nat.
Proof. reflexivity. Qed.

End Effects.

(** ** The reconciliation engine *)

(** C2.  When the cache already has a list for the height of the incoming
    event, [consistentRecords] holds exactly when every cached entry (not
    only the first one) carries the root of the event; the entry of the
    event is appended when they all do, and otherwise nothing is stored
    and the process exits. *)
Theorem existing_height_compares_every_entry
    (rootCache : gmap Z (list RootHashRecord.t)) (e : LogData.t)
    (prev : list RootHashRecord.t) :
  rootCache !! LogData.Height e = Some prev ->
  (consistentRecords (recordOf e) prev = true
   <-> forall r, r ∈ prev -> RootHashRecord.Root r = LogData.Root e)
  /\ ((forall r, r ∈ prev -> RootHashRecord.Root r = LogData.Root e) ->
      handleCommit rootCache e
      = (statusEffects e,
         Running (<[LogData.Height e := prev ++ [recordOf e]]> rootCache)))
  /\ (forall r, r ∈ prev -> RootHashRecord.Root r ≠ LogData.Root e ->
      handleCommit rootCache e
      = (statusEffects e ++ mismatchEffects (LogData.Height e) prev, Exited 1)).
Proof.
  intros Hl. split; [|split].
  - rewrite consistentRecords_Forall, Forall_forall. reflexivity.
  - intros Hall. apply handleCommit_agree; [exact Hl|].
    apply Forall_forall. exact Hall.
  - intros r Hin Hne. apply handleCommit_mismatch; [exact Hl|].
    rewrite Forall_forall. intros Hall. apply Hne, Hall, Hin.
Qed.

(** A second entry that differs is found although the first one agrees. *)
Lemma existing_height_compares_every_entry_witness :
  let rootCache : gmap Z (list RootHashRecord.t) :=
    {[ 100 := [RootHashRecord.mk "nodeA" "aa"; RootHashRecord.mk "nodeB" "bb"] ]} in
  handleCommit rootCache (commitEvent 100 "aa" "nodeC")
  = (statusEffects (commitEvent 100 "aa" "nodeC")
       ++ mismatchEffects 100
            [RootHashRecord.mk "nodeA" "aa"; RootHashRecord.mk "nodeB" "bb"],
     Exited 1).
Proof.
  intros rootCache.
  refine (proj2 (proj2 (existing_height_compares_every_entry rootCache
            (commitEvent 100 "aa" "nodeC") _ _)) (RootHashRecord.mk "nodeB" "bb") _ _).
  - reflexivity.
  - apply list_elem_of_further, list_elem_of_here.
  - simpl. discriminate.
Defined.

(** C3.  In every cache the engine can reach from the empty one without
    halting, the roots stored under one height are all the same string. *)
Theorem cached_roots_identical (rootCache : gmap Z (list RootHashRecord.t)) :
  reachable rootCache ->
  forall h recs r1 r2,
    rootCache !! h = Some recs -> r1 ∈ recs -> r2 ∈ recs ->
    RootHashRecord.Root r1 = RootHashRecord.Root r2.
Proof.
  intros (events & out & Hrun) h recs r1 r2 Hl H1 H2.
  pose proof (run_running_conflictFree events ∅ [] out rootCache
                represents_empty conflictFree_nil Hrun) as Hcf.
  simpl in Hcf.
  destruct (run_accept events ∅ [] represents_empty Hcf) as (c' & Hrun' & Hrep).
  rewrite Hrun in Hrun'. injection Hrun' as _ <-. simpl in Hrep.
  rewrite Hrep in Hl. apply groupAt_Some in Hl as [<- _].
  apply elem_of_eventsAt in H1 as (e1 & Hin1 & Hh1 & ->).
  apply elem_of_eventsAt in H2 as (e2 & Hin2 & Hh2 & ->).
  simpl. apply Hcf; congruence.
Qed.

Lemma cached_roots_identical_witness :
  let rootCache : gmap Z (list RootHashRecord.t) :=
    {[ 200 := [RootHashRecord.mk "nodeA" "cc"; RootHashRecord.mk "nodeB" "cc"] ]} in
  reachable rootCache
  /\ RootHashRecord.Root (RootHashRecord.mk "nodeA" "cc")
     = RootHashRecord.Root (RootHashRecord.mk "nodeB" "cc").
Proof.
  intros rootCache.
  assert (Hreach : reachable rootCache).
  { exists [commitEvent 200 "cc" "nodeA"; commitEvent 200 "cc" "nodeB"].
    eexists. vm_compute. reflexivity. }
  split; [exact Hreach|].
  refine (cached_roots_identical rootCache Hreach 200 _ _ _ _ _ _).
  - reflexivity.
  - apply list_elem_of_here.
  - apply list_elem_of_further, list_elem_of_here.
Defined.

(** C1.  A sequence with two events at one height and different roots is
    cut at the first event [e] that differs from an earlier one: the
    events before it are accepted, [e] raises the one mismatch notice and
    the one [log.Fatal], the process exits with status 1, and whatever
    follows [e] is never looked at. *)
Theorem divergence_stops_the_engine (events : list LogData.t) :
  (exists e1 e2, e1 ∈ events /\ e2 ∈ events
                 /\ LogData.Height e1 = LogData.Height e2
                 /\ LogData.Root e1 ≠ LogData.Root e2) ->
  exists pre e post rootCache,
    events = pre ++ e :: post
    /\ conflictFree pre /\ clashes pre e
    /\ runCommits ∅ pre = (statusOutput pre, Running rootCache)
    /\ runCommits ∅ events
       = (statusOutput pre ++ statusEffects e
            ++ mismatchEffects (LogData.Height e) (eventsAt (LogData.Height e) pre),
          Exited 1)
    /\ countEffects isFatal (fst (runCommits ∅ events)) = 1%nat
    /\ countEffects isMismatchPost (fst (runCommits ∅ events)) = 1%nat
    /\ forall post', runCommits ∅ (pre ++ e :: post') = runCommits ∅ events.
Proof.
  intros (e1 & e2 & H1 & H2 & Hh & Hne).
  assert (Hbad : ~ conflictFree ([] ++ events)).
  { intros Hcf. apply Hne, Hcf; assumption. }
  destruct (first_clash events [] conflictFree_nil Hbad)
    as (pre & e & post & -> & Hcf & Hcl).
  simpl in Hcf, Hcl.
  pose proof (fun post' => run_reject pre e post' ∅ [] represents_empty Hcf Hcl) as Hrej.
  cbn [app] in Hrej.
  destruct (run_accept pre ∅ [] represents_empty Hcf) as (c1 & Hacc & _).
  exists pre, e, post, c1.
  repeat split; try assumption.
  - apply Hrej.
  - rewrite Hrej. cbn [fst].
    rewrite !countEffects_app, isFatal_statusOutput, isFatal_mismatch.
    rewrite countEffects_status by reflexivity. reflexivity.
  - rewrite Hrej. cbn [fst].
    rewrite !countEffects_app, isMismatchPost_statusOutput, isMismatchPost_mismatch.
    rewrite countEffects_status by reflexivity. reflexivity.
  - intros post'. rewrite !Hrej. reflexivity.
Qed.

Lemma divergence_stops_the_engine_witness :
  exists pre e post rootCache,
    exampleDivergence = pre ++ e :: post
    /\ conflictFree pre /\ clashes pre e
    /\ runCommits ∅ pre = (statusOutput pre, Running rootCache)
    /\ runCommits ∅ exampleDivergence
       = (statusOutput pre ++ statusEffects e
            ++ mismatchEffects (LogData.Height e) (eventsAt (LogData.Height e) pre),
          Exited 1)
    /\ countEffects isFatal (fst (runCommits ∅ exampleDivergence)) = 1%nat
    /\ countEffects isMismatchPost (fst (runCommits ∅ exampleDivergence)) = 1%nat
    /\ forall post', runCommits ∅ (pre ++ e :: post') = runCommits ∅ exampleDivergence.
Proof.
  apply (divergence_stops_the_engine exampleDivergence).
  exists (commitEvent 100 "aa" "nodeA"), (commitEvent 100 "bb" "nodeC").
  split; [apply list_elem_of_here|].
  split; [apply list_elem_of_further, list_elem_of_further, list_elem_of_here|].
  split; [reflexivity | simpl; discriminate].
Defined.

(** ** One height, one root *)

Section SingleHeight.
Variables (h : Z) (events : list LogData.t).
Hypothesis at_h : forall e, e ∈ events -> LogData.Height e = h.

Lemma eventsAt_same : eventsAt h events = recordOf <$> events.
Proof using at_h.
  unfold eventsAt. f_equal. clear -at_h.
  induction events as [|e l IH]; [reflexivity|].
  rewrite filter_cons_True by (apply at_h, list_elem_of_here).
  f_equal. apply IH. intros e' Hin. apply at_h, list_elem_of_further, Hin.
Qed.

Lemma eventsAt_other h' : h' ≠ h -> eventsAt h' events = [].
Proof using at_h.
  intros Hne. unfold eventsAt. clear -at_h Hne.
  induction events as [|e l IH]; [reflexivity|].
  rewrite filter_cons_False.
  - apply IH. intros e' Hin. apply at_h, list_elem_of_further, Hin.
  - rewrite (at_h e) by apply list_elem_of_here. congruence.
Qed.

End SingleHeight.

(** C4.  Events that all sit at one height and all carry one root are all
    accepted, in whatever order and however often they come: the cache
    ends with one entry per event under that height and nothing else, and
    the output holds no mismatch notice and no [log.Fatal]. *)
Theorem same_root_events_all_accepted (h : Z) (root : string)
    (events : list LogData.t) :
  (forall e, e ∈ events -> LogData.Height e = h /\ LogData.Root e = root) ->
  runCommits ∅ events
  = (statusOutput events,
     Running (match events with
              | [] => ∅
              | _ => {[ h := recordOf <$> events ]}
              end))
  /\ length (recordOf <$> events) = length events
  /\ countEffects isAlert (statusOutput events) = 0%nat.
Proof.
  intros Hall.
  assert (Hh : forall e, e ∈ events -> LogData.Height e = h) by (intros e He; apply Hall, He).
  assert (Hcf : conflictFree ([] ++ events)).
  { intros e1 e2 H1 H2 _. destruct (Hall e1 H1) as [_ ->], (Hall e2 H2) as [_ ->].
    reflexivity. }
  destruct (run_accept events ∅ [] represents_empty Hcf) as (c & Hrun & Hrep).
  cbn [app] in Hrep. split; [|split].
  - rewrite Hrun. do 2 f_equal. apply map_eq. intros h'. rewrite Hrep. unfold groupAt.
    destruct (decide (h' = h)) as [->|Hne].
    + rewrite (eventsAt_same h events Hh).
      destruct events as [|e l]; [reflexivity|].
      rewrite lookup_singleton_eq. reflexivity.
    + rewrite (eventsAt_other h events Hh h' Hne).
      destruct events as [|e l]; [rewrite lookup_empty; reflexivity|].
      rewrite lookup_singleton_ne by congruence. reflexivity.
  - apply length_fmap.
  - apply isAlert_statusOutput.
Qed.

(** The exact duplicate of the specification: two entries under height 200. *)
Lemma same_root_events_all_accepted_witness :
  let events := [commitEvent 200 "cc" "nodeA"; commitEvent 200 "cc" "nodeA"] in
  runCommits ∅ events
  = (statusOutput events,
     Running {[ 200 := [RootHashRecord.mk "nodeA" "cc"; RootHashRecord.mk "nodeA" "cc"] ]})
  /\ length (recordOf <$> events) = 2%nat
  /\ countEffects isAlert (statusOutput events) = 0%nat.
Proof.
  intros events. apply (same_root_events_all_accepted 200 "cc" events).
  intros e He. apply elem_of_cons in He as [->|He]; [split; reflexivity|].
  apply list_elem_of_singleton in He as ->. split; reflexivity.
Defined.

(** ** Heights are independent *)

(** C7.  What one step does with an event at height [H] is decided by the
    cache entry for [H] alone: two caches that agree at [H] give the same
    output and the same verdict, store the same list under [H], and each
    keeps every other height as it was. *)
Theorem heights_do_not_interact
    (rootCache1 rootCache2 : gmap Z (list RootHashRecord.t)) (e : LogData.t) :
  rootCache1 !! LogData.Height e = rootCache2 !! LogData.Height e ->
  fst (handleCommit rootCache1 e) = fst (handleCommit rootCache2 e)
  /\ match snd (handleCommit rootCache1 e), snd (handleCommit rootCache2 e) with
     | Running c1, Running c2 =>
         c1 !! LogData.Height e = c2 !! LogData.Height e
         /\ forall h', h' ≠ LogData.Height e ->
              c1 !! h' = rootCache1 !! h' /\ c2 !! h' = rootCache2 !! h'
     | Exited code1, Exited code2 => code1 = code2
     | _, _ => False
     end.
Proof.
  intros Heq. unfold handleCommit. rewrite Heq.
  destruct (rootCache2 !! LogData.Height e) as [prev|].
  - destruct (consistentRecords (recordOf e) prev); simpl.
    + split; [reflexivity|]. split.
      * rewrite !lookup_insert_eq. reflexivity.
      * intros h' Hne. rewrite !lookup_insert_ne by congruence. split; reflexivity.
    + split; reflexivity.
  - simpl. split; [reflexivity|]. split.
    + rewrite !lookup_insert_eq. reflexivity.
    + intros h' Hne. rewrite !lookup_insert_ne by congruence. split; reflexivity.
Qed.

Lemma heights_do_not_interact_witness :
  let c1 : gmap Z (list RootHashRecord.t) :=
    {[ 100 := [RootHashRecord.mk "nodeA" "aa"] ]} in
  let c2 : gmap Z (list RootHashRecord.t) :=
    <[ 7 := [RootHashRecord.mk "nodeB" "ee"] ]> c1 in
  let e := commitEvent 100 "aa" "nodeB" in
  fst (handleCommit c1 e) = fst (handleCommit c2 e)
  /\ match snd (handleCommit c1 e), snd (handleCommit c2 e) with
     | Running c1', Running c2' =>
         c1' !! LogData.Height e = c2' !! LogData.Height e
         /\ forall h', h' ≠ LogData.Height e -> c1' !! h' = c1 !! h' /\ c2' !! h' = c2 !! h'
     | Exited code1, Exited code2 => code1 = code2
     | _, _ => False
     end.
Proof.
  intros c1 c2 e. apply (heights_do_not_interact c1 c2 e). reflexivity.
Defined.

(** ** Status lines and progress notices *)

Lemma progressDue_divide (e : LogData.t) :
  progressDue e = true <-> (heightModulus | LogData.Height e).
Proof.
  unfold progressDue. rewrite Z.eqb_eq. apply Z.rem_divide. discriminate.
Qed.

(** C8.  Every event the loop processes first logs the status line
    ["<pod>, at height <height>, has apphash <root>"]; the notice for
    Discord follows exactly when 1000 divides the height; after that
    comes nothing when the event is accepted and the two mismatch effects
    when it is not. *)
Theorem status_line_and_progress_notice
    (rootCache : gmap Z (list RootHashRecord.t)) (e : LogData.t) :
  exists rest,
    fst (handleCommit rootCache e)
    = LogPrint (LogData.PodName e +:+ ", at height " +:+ itoa (LogData.Height e)
                  +:+ ", has apphash " +:+ LogData.Root e)
        :: (if progressDue e then [PostToDiscord (discord_msg e)] else []) ++ rest
    /\ (forall c, snd (handleCommit rootCache e) = Running c -> rest = [])
    /\ countEffects isAlert rest = length rest
    /\ (progressDue e = true <-> (1000 | LogData.Height e))
    /\ (PostToDiscord (discord_msg e) ∈ fst (handleCommit rootCache e)
        <-> (1000 | LogData.Height e)).
Proof.
  assert (Hshape : exists rest,
             fst (handleCommit rootCache e) = statusEffects e ++ rest
             /\ (forall c, snd (handleCommit rootCache e) = Running c -> rest = [])
             /\ (rest = [] \/ exists prev, rest = mismatchEffects (LogData.Height e) prev)).
  { unfold handleCommit. destruct (rootCache !! LogData.Height e) as [prev|].
    - destruct (consistentRecords (recordOf e) prev); simpl.
      + exists []. rewrite app_nil_r. auto.
      + exists (mismatchEffects (LogData.Height e) prev).
        split; [reflexivity|]. split; [discriminate | eauto].
    - exists []. simpl. rewrite app_nil_r. auto. }
  destruct Hshape as (rest & Hout & Hacc & Hrest).
  exists rest. split; [exact Hout|]. split; [exact Hacc|].
  split; [destruct Hrest as [->|[prev ->]]; reflexivity|].
  split; [apply progressDue_divide|].
  rewrite Hout. change 1000 with heightModulus. rewrite <- progressDue_divide.
  unfold statusEffects. split.
  - intros Hin. destruct (progressDue e); [reflexivity|].
    apply elem_of_cons in Hin as [Hin|Hin]; [discriminate|].
    destruct Hrest as [->|[prev ->]].
    + apply elem_of_nil in Hin. destruct Hin.
    + apply elem_of_cons in Hin as [Hin|Hin]; [discriminate Hin|].
      apply list_elem_of_singleton in Hin. discriminate Hin.
  - intros ->. apply list_elem_of_further, list_elem_of_here.
Qed.

(** ** Replay *)

(** C9.  An accepted sequence, run again from the empty cache, can only
    end the way it ended the first time: every execution of the loop over
    it gives the same output and the same cache, that cache is the
    sequence itself grouped by height, and no alert is raised. *)
Theorem replay_gives_the_same_cache (events : list LogData.t) (out : list Effect)
    (rootCache : gmap Z (list RootHashRecord.t)) :
  runCommits ∅ events = (out, Running rootCache) ->
  (forall out' p, Exec ∅ events out' p -> out' = out /\ p = Running rootCache)
  /\ (forall h, rootCache !! h = groupAt h events)
  /\ countEffects isAlert out = 0%nat.
Proof.
  intros Hrun.
  pose proof (run_running_conflictFree events ∅ [] out rootCache
                represents_empty conflictFree_nil Hrun) as Hcf.
  destruct (run_accept events ∅ [] represents_empty Hcf) as (c & Hrun' & Hrep).
  rewrite Hrun in Hrun'. injection Hrun' as -> <-. cbn [app] in Hrep.
  split; [|split].
  - intros out' p Hexec. apply Exec_runCommits in Hexec.
    rewrite Hrun in Hexec. injection Hexec as <- <-. auto.
  - exact Hrep.
  - apply isAlert_statusOutput.
Qed.

Lemma replay_gives_the_same_cache_witness :
  let events := [commitEvent 7 "ab" "nodeA"; commitEvent 8 "cd" "nodeA";
                 commitEvent 7 "ab" "nodeB"] in
  let rootCache : gmap Z (list RootHashRecord.t) :=
    {[ 7 := [RootHashRecord.mk "nodeA" "ab"; RootHashRecord.mk "nodeB" "ab"];
       8 := [RootHashRecord.mk "nodeA" "cd"] ]} in
  runCommits ∅ events = (statusOutput events, Running rootCache)
  /\ ((forall out' p, Exec ∅ events out' p ->
         out' = statusOutput events /\ p = Running rootCache)
      /\ (forall h, rootCache !! h = groupAt h events)
      /\ countEffects isAlert (statusOutput events) = 0%nat).
Proof.
  intros events rootCache.
  assert (Hrun : runCommits ∅ events = (statusOutput events, Running rootCache)).
  { vm_compute. reflexivity. }
  split; [exact Hrun|].
  exact (replay_gives_the_same_cache events (statusOutput events) rootCache Hrun).
Defined.

Lemma handleEntry_commitOf (rootCache : gmap Z (list RootHashRecord.t))
    (logEntry : LogEntry.t) :
  handleEntry rootCache logEntry
  = match commitOf logEntry with
    | Some commitLog => handleCommit rootCache commitLog
    | None => ([], Running rootCache)
    end.
Proof.
  unfold handleEntry, commitOf.
  destruct (LogEntry.metadata logEntry !! "pod_name") as [podName|]; [|reflexivity].
  destruct (parseCommitLog podName (LogEntry.payload logEntry)); reflexivity.
Qed.

(** The loop over raw entries is the loop over the events they carry. *)
Lemma tmWorkerLoop_runCommits (commitLogs : list LogEntry.t) :
  forall rootCache,
    tmWorkerLoop rootCache commitLogs = runCommits rootCache (omap commitOf commitLogs).
Proof.
  induction commitLogs as [|logEntry rest IH]; intros rootCache; [reflexivity|].
  cbn [tmWorkerLoop omap list_omap]. rewrite handleEntry_commitOf.
  destruct (commitOf logEntry) as [commitLog|].
  - cbn [runCommits].
    destruct (handleCommit rootCache commitLog) as [out [c|code]]; [|reflexivity].
    rewrite IH. reflexivity.
  - rewrite IH. destruct (runCommits rootCache (omap commitOf rest)). reflexivity.
Qed.

(** ** The record extractor *)

Section Matching.
Implicit Types (s t p r : string) (cls : ascii -> bool).

Local Arguments String.append !_ _ / : simpl nomatch.

Lemma append_assoc s t r : (s +:+ t) +:+ r = s +:+ t +:+ r.
Proof. induction s as [|c s IH]; simpl; [reflexivity | rewrite IH; reflexivity]. Qed.

Lemma append_nil_r s : s +:+ EmptyString = s.
Proof. induction s as [|c s IH]; simpl; [reflexivity | rewrite IH; reflexivity]. Qed.

Lemma lit_app p s : lit p (p +:+ s) = Some s.
Proof.
  induction p as [|a p IH]; simpl; [reflexivity|].
  rewrite Ascii.eqb_refl. exact IH.
Qed.

Lemma lit_inv p : forall s t, lit p s = Some t -> s = p +:+ t.
Proof.
  induction p as [|a p IH]; intros s t; simpl.
  - intros [= ->]. reflexivity.
  - destruct s as [|b s]; [discriminate|].
    destruct (Ascii.eqb_spec a b) as [->|]; [|discriminate].
    intros H. rewrite (IH _ _ H). reflexivity.
Qed.

Lemma allChars_app cls s t :
  allChars cls (s +:+ t) = allChars cls s && allChars cls t.
Proof.
  induction s as [|c s IH]; simpl; [reflexivity|].
  rewrite IH. destruct (cls c); reflexivity.
Qed.

Lemma span_app cls r : forall t,
  allChars cls r = true -> stopsRun cls t -> span cls (r +:+ t) = (r, t).
Proof.
  induction r as [|c r IH]; intros t Hall Hstop; simpl.
  - destruct t as [|c t]; [reflexivity|]. simpl in *. rewrite Hstop. reflexivity.
  - simpl in Hall. apply andb_true_iff in Hall as [Hc Hall].
    rewrite Hc, (IH t Hall Hstop). reflexivity.
Qed.

Lemma span_inv cls s : forall r t,
  span cls s = (r, t) -> s = r +:+ t /\ allChars cls r = true /\ stopsRun cls t.
Proof.
  induction s as [|c s IH]; intros r t; simpl.
  - intros [= <- <-]. simpl. auto.
  - destruct (cls c) eqn:Hc.
    + destruct (span cls s) as [r' t'] eqn:Hs. intros [= <- <-].
      destruct (IH r' t' eq_refl) as (-> & Hall & Hstop).
      simpl. rewrite Hc, Hall. auto.
    + intros [= <- <-]. simpl. auto.
Qed.

Lemma plus_app cls r t :
  run cls r -> stopsRun cls t -> plus cls (r +:+ t) = Some (r, t).
Proof.
  intros [Hne Hall] Hstop. unfold plus. rewrite (span_app cls r t Hall Hstop).
  destruct r; [contradiction | reflexivity].
Qed.

Lemma plus_inv cls s r t :
  plus cls s = Some (r, t) -> s = r +:+ t /\ run cls r /\ stopsRun cls t.
Proof.
  unfold plus. destruct (span cls s) as [r' t'] eqn:Hs.
  destruct r' as [|c r']; [discriminate|]. intros [= <- <-].
  destruct (span_inv cls s _ _ Hs) as (-> & Hall & Hstop).
  repeat split; [discriminate | exact Hall | exact Hstop].
Qed.

End Matching.

Section Extractor.
Implicit Types (s line pre rest post ws height hash root numTxs : string).

Local Arguments String.append !_ _ / : simpl nomatch.

(** At a given position the pattern matches in one way only: every
    greedy run is stopped by the literal after it. *)
Lemma matchHere_complete ws height hash root numTxs post :
  fields ws height hash root numTxs -> noDigitAhead post ->
  matchHere (commitLine ws height hash root numTxs post)
  = Some (height, hash, root, numTxs).
Proof.
  intros (Hws & Hh & Hhash & Hroot & Hn) Hpost.
  unfold matchHere, commitLine.
  rewrite lit_app. cbn [mbind option_bind].
  rewrite (plus_app isSpace ws _ Hws) by reflexivity. cbn [mbind option_bind].
  rewrite lit_app. cbn [mbind option_bind].
  rewrite (plus_app isDigit height _ Hh) by reflexivity. cbn [mbind option_bind].
  rewrite lit_app. cbn [mbind option_bind].
  rewrite (plus_app isHex hash _ Hhash) by reflexivity. cbn [mbind option_bind].
  rewrite lit_app. cbn [mbind option_bind].
  rewrite (plus_app isHex root _ Hroot) by reflexivity. cbn [mbind option_bind].
  rewrite lit_app. cbn [mbind option_bind].
  rewrite (plus_app isDigit numTxs post Hn Hpost). reflexivity.
Qed.

Lemma matchHere_sound s height hash root numTxs :
  matchHere s = Some (height, hash, root, numTxs) ->
  exists ws post,
    fields ws height hash root numTxs /\ noDigitAhead post
    /\ s = commitLine ws height hash root numTxs post.
Proof.
  unfold matchHere. intros H.
  destruct (lit marker s) as [s1|] eqn:H1; [|discriminate].
  cbn [mbind option_bind] in H.
  destruct (plus isSpace s1) as [[ws s2]|] eqn:H2; [|discriminate].
  cbn [mbind option_bind] in H.
  destruct (lit _ s2) as [s3|] eqn:H3; [|discriminate].
  cbn [mbind option_bind] in H.
  destruct (plus isDigit s3) as [[h' s4]|] eqn:H4; [|discriminate].
  cbn [mbind option_bind] in H.
  destruct (lit _ s4) as [s5|] eqn:H5; [|discriminate].
  cbn [mbind option_bind] in H.
  destruct (plus isHex s5) as [[hash' s6]|] eqn:H6; [|discriminate].
  cbn [mbind option_bind] in H.
  destruct (lit _ s6) as [s7|] eqn:H7; [|discriminate].
  cbn [mbind option_bind] in H.
  destruct (plus isHex s7) as [[root' s8]|] eqn:H8; [|discriminate].
  cbn [mbind option_bind] in H.
  destruct (lit _ s8) as [s9|] eqn:H9; [|discriminate].
  cbn [mbind option_bind] in H.
  destruct (plus isDigit s9) as [[n' post]|] eqn:H10; [|discriminate].
  cbn [mbind option_bind] in H. injection H as -> -> -> ->.
  apply lit_inv in H1, H3, H5, H7, H9.
  apply plus_inv in H2 as (E2 & R2 & _), H4 as (E4 & R4 & _), H6 as (E6 & R6 & _),
    H8 as (E8 & R8 & _), H10 as (E10 & R10 & Hstop).
  exists ws, post.
  split; [exact (conj R2 (conj R4 (conj R6 (conj R8 R10))))|]. split; [exact Hstop|].
  unfold commitLine. congruence.
Qed.

(** A match begins at the head of [s] exactly when [matchHere] finds one. *)
Lemma startsCommit_matchHere s : startsCommit s <-> matchHere s ≠ None.
Proof.
  split.
  - intros (ws & height & hash & root & numTxs & post & Hf & ->).
    destruct (span isDigit post) as [more post'] eqn:Hs.
    apply span_inv in Hs as (-> & Hall & Hstop).
    assert (E : commitLine ws height hash root numTxs (more +:+ post')
                = commitLine ws height hash root (numTxs +:+ more) post').
    { unfold commitLine. rewrite (append_assoc numTxs). reflexivity. }
    rewrite E, matchHere_complete; [congruence| |exact Hstop].
    destruct Hf as (Hws & Hh & Hhash & Hroot & Hne & Hn).
    refine (conj Hws (conj Hh (conj Hhash (conj Hroot (conj _ _))))).
    + destruct numTxs; [contradiction | simpl; discriminate].
    + rewrite allChars_app, Hn, Hall. reflexivity.
  - intros Hm. destruct (matchHere s) as [[[[height hash] root] numTxs]|] eqn:E;
      [|contradiction].
    apply matchHere_sound in E as (ws & post & Hf & _ & ->).
    exists ws, height, hash, root, numTxs, post. auto.
Qed.

Lemma FindStringSubmatch_unfold s :
  FindStringSubmatch s
  = match matchHere s with
    | Some m => Some m
    | None =>
        match s with
        | String _ s' => FindStringSubmatch s'
        | EmptyString => None
        end
    end.
Proof. destruct s; reflexivity. Qed.

Lemma FindStringSubmatch_leftmost pre : forall rest m,
  (forall pre1 pre2, pre = pre1 +:+ pre2 -> pre2 ≠ EmptyString -> matchHere (pre2 +:+ rest) = None) ->
  matchHere rest = Some m ->
  FindStringSubmatch (pre +:+ rest) = Some m.
Proof.
  induction pre as [|a pre IH]; intros rest m Hleft Hm.
  - simpl. rewrite FindStringSubmatch_unfold, Hm. reflexivity.
  - rewrite FindStringSubmatch_unfold.
    rewrite (Hleft EmptyString (String a pre)) by (reflexivity || discriminate).
    simpl. apply IH; [|exact Hm].
    intros pre1 pre2 -> Hne. apply (Hleft (String a pre1) pre2); [reflexivity | exact Hne].
Qed.

Lemma FindStringSubmatch_Some s : forall m,
  FindStringSubmatch s = Some m ->
  exists pre rest, s = pre +:+ rest /\ matchHere rest = Some m.
Proof.
  induction s as [|a s IH]; intros m; rewrite FindStringSubmatch_unfold.
  - destruct (matchHere EmptyString) eqn:E; [|discriminate].
    intros [= <-]. exists EmptyString, EmptyString. auto.
  - destruct (matchHere (String a s)) eqn:E.
    + intros [= <-]. exists EmptyString, (String a s). auto.
    + intros H. destruct (IH m H) as (pre & rest & -> & Hm).
      exists (String a pre), rest. auto.
Qed.

Lemma FindStringSubmatch_None s :
  FindStringSubmatch s = None ->
  forall pre rest, s = pre +:+ rest -> matchHere rest = None.
Proof.
  induction s as [|a s IH]; rewrite FindStringSubmatch_unfold.
  - destruct (matchHere EmptyString) eqn:E; [discriminate|]. intros _ pre rest Heq.
    destruct pre; [|discriminate]. simpl in Heq. subst rest. exact E.
  - destruct (matchHere (String a s)) eqn:E; [discriminate|]. intros H pre rest Heq.
    destruct pre as [|b pre]; simpl in Heq.
    + subst rest. exact E.
    + injection Heq as -> ->. apply (IH H pre rest). reflexivity.
Qed.

Lemma FindStringSubmatch_grammar line :
  FindStringSubmatch line = None <-> ~ matchesGrammar line.
Proof.
  split.
  - intros Hnone (pre & rest & -> & Hstart).
    apply startsCommit_matchHere in Hstart. apply Hstart.
    apply (FindStringSubmatch_None _ Hnone pre rest). reflexivity.
  - intros Hno. destruct (FindStringSubmatch line) as [m|] eqn:E; [|reflexivity].
    destruct Hno. apply FindStringSubmatch_Some in E as (pre & rest & -> & Hm).
    exists pre, rest. split; [reflexivity|].
    apply startsCommit_matchHere. congruence.
Qed.

End Extractor.

Section Integers.
Implicit Types (s : string) (c : ascii).

Lemma digitVal_range c : isDigit c = true -> 0 <= digitVal c <= 9.
Proof.
  unfold isDigit, digitVal. intros H. apply andb_true_iff in H as [H1 H2].
  apply N.leb_le in H1, H2. lia.
Qed.

Lemma digitsValue_nonneg s : forall acc,
  allChars isDigit s = true -> 0 <= acc -> 0 <= digitsValue acc s.
Proof.
  induction s as [|c s IH]; intros acc Hall Hacc; simpl; [exact Hacc|].
  simpl in Hall. apply andb_true_iff in Hall as [Hc Hall].
  apply IH; [exact Hall|]. pose proof (digitVal_range c Hc). lia.
Qed.

(** On a run of digits [Atoi] can only fail by overflow. *)
Lemma Atoi_digits s :
  run isDigit s ->
  Atoi s = if decimal s <=? maxInt then inl (decimal s) else inr ErrRange.
Proof.
  intros [Hne Hall]. destruct s as [|c s]; [contradiction|]. unfold Atoi.
  assert (Hc : isDigit c = true).
  { simpl in Hall. apply andb_true_iff in Hall. tauto. }
  destruct (Ascii.eqb_spec c "-") as [->|_]; [discriminate Hc|].
  destruct (Ascii.eqb_spec c "+") as [->|_]; [discriminate Hc|].
  rewrite Hall. fold (decimal (String c s)).
  assert (0 <= decimal (String c s)) by (apply digitsValue_nonneg; [exact Hall | lia]).
  replace (minInt <=? decimal (String c s)) with true; [reflexivity|].
  symmetry. apply Z.leb_le. unfold minInt. lia.
Qed.

End Integers.

(** C6, as the code has it.  Take a line whose leftmost match of the
    pattern is spelled out: [pre], then the marker, white space and the
    four fields, then [post], which does not go on with a digit.  When
    both numbers are at most [2^63 - 1] the extractor returns the event
    with exactly the written height, hash, root and transaction count;
    when one of them is larger it returns the matching integer error and
    no event.  A line returns "no match" exactly when it contains no match
    of the pattern. *)
Theorem parseCommitLog_spec (podName line : string) :
  (forall pre ws height hash root numTxs post,
     line = pre +:+ commitLine ws height hash root numTxs post ->
     fields ws height hash root numTxs ->
     leftmost pre (commitLine ws height hash root numTxs post) ->
     noDigitAhead post ->
     (decimal height <= maxInt -> decimal numTxs <= maxInt ->
      parseCommitLog podName line
      = inl (LogData.mk (decimal height) hash root (decimal numTxs) podName))
     /\ (maxInt < decimal height ->
         parseCommitLog podName line = inr (ParsingHeight ErrRange))
     /\ (decimal height <= maxInt -> maxInt < decimal numTxs ->
         parseCommitLog podName line = inr (ParsingNumTxs ErrRange)))
  /\ (parseCommitLog podName line = inr NoMatch <-> ~ matchesGrammar line).
Proof.
  split.
  - intros pre ws height hash root numTxs post -> Hf Hleft Hpost.
    assert (Hfind : FindStringSubmatch (pre +:+ commitLine ws height hash root numTxs post)
                    = Some (height, hash, root, numTxs)).
    { apply FindStringSubmatch_leftmost; [|apply matchHere_complete; assumption].
      intros pre1 pre2 Hpre Hne.
      destruct (matchHere (pre2 +:+ commitLine ws height hash root numTxs post)) eqn:E;
        [|reflexivity].
      destruct (Hleft pre1 pre2 Hpre Hne). apply startsCommit_matchHere. congruence. }
    unfold parseCommitLog. rewrite Hfind.
    destruct Hf as (_ & Hh & _ & _ & Hn).
    rewrite (Atoi_digits height Hh), (Atoi_digits numTxs Hn).
    split; [|split].
    + intros H1 H2. apply Z.leb_le in H1, H2. rewrite H1, H2. reflexivity.
    + intros H1. apply Z.leb_gt in H1. rewrite H1. reflexivity.
    + intros H1 H2. apply Z.leb_le in H1. apply Z.leb_gt in H2.
      rewrite H1, H2. reflexivity.
  - rewrite <- FindStringSubmatch_grammar. unfold parseCommitLog.
    destruct (FindStringSubmatch line) as [[[[m1 m2] m3] m4]|].
    + split; [|discriminate].
      destruct (Atoi m1); [destruct (Atoi m4)|]; discriminate.
    + split; reflexivity.
Qed.

(** The example line of the specification. *)
Lemma parseCommitLog_spec_witness :
  parseCommitLog "nodeA"
    "finalizing commit of block module=consensus height=42 hash=deadbeef root=cafebabe num_txs=3"
  = inl (LogData.mk 42 "deadbeef" "cafebabe" 3 "nodeA").
Proof.
  refine (proj1 (proj1 (parseCommitLog_spec "nodeA" _)
                   EmptyString " " "42" "deadbeef" "cafebabe" "3" EmptyString _ _ _ _) _ _).
  - reflexivity.
  - repeat split; (discriminate || reflexivity).
  - intros pre1 pre2 H Hne. destruct pre1, pre2; try discriminate H. contradiction.
  - exact I.
  - vm_compute. discriminate.
  - vm_compute. discriminate.
Defined.

(** C6 as it is worded fails: a line of the grammar whose height is
    [2^63] yields no event. *)
Lemma grammar_line_rejected_by_Atoi :
  ~ (forall podName line,
       matchesGrammar line -> exists commitLog, parseCommitLog podName line = inl commitLog).
Proof.
  intros H.
  destruct (H "nodeA"
    "finalizing commit of block module=consensus height=9223372036854775808 hash=deadbeef root=cafebabe num_txs=3")
    as [commitLog Hparse].
  - exists EmptyString, "finalizing commit of block module=consensus height=9223372036854775808 hash=deadbeef root=cafebabe num_txs=3".
    split; [reflexivity|].
    exists " ", "9223372036854775808", "deadbeef", "cafebabe", "3", EmptyString.
    split; [|reflexivity]. repeat split; (discriminate || reflexivity).
  - vm_compute in Hparse. discriminate Hparse.
Qed.

(** The malformed line of the specification. *)
Example parseCommitLog_malformed :
  parseCommitLog "nodeA" "height=42 root=cafebabe" = inr NoMatch.
Proof. reflexivity. Qed.

(** ** The text of the mismatch alert *)

Section Alert.
Implicit Types (prev : list RootHashRecord.t) (r : RootHashRecord.t).

Local Arguments String.append !_ _ / : simpl nomatch.

Lemma knownRootHashesString_from prev : forall s,
  fold_left (fun s r => s +:+ recordLine r) prev s
  = s +:+ knownRootHashesString prev.
Proof.
  unfold knownRootHashesString.
  induction prev as [|r prev IH]; intros s; simpl.
  - rewrite append_nil_r. reflexivity.
  - rewrite IH, (IH (recordLine r)), append_assoc. reflexivity.
Qed.

Lemma knownRootHashesString_cons r prev :
  knownRootHashesString (r :: prev) = recordLine r +:+ knownRootHashesString prev.
Proof.
  unfold knownRootHashesString at 1. simpl.
  apply (knownRootHashesString_from prev (recordLine r)).
Qed.

(** Every cached record has its line in the dump. *)
Lemma knownRootHashesString_names prev r :
  r ∈ prev ->
  exists before after,
    knownRootHashesString prev = before +:+ recordLine r +:+ after.
Proof.
  induction prev as [|r' prev IH]; intros Hin.
  - apply elem_of_nil in Hin. destruct Hin.
  - rewrite knownRootHashesString_cons. apply elem_of_cons in Hin as [->|Hin].
    + exists EmptyString, (knownRootHashesString prev). reflexivity.
    + destruct (IH Hin) as (before & after & ->).
      exists (recordLine r' +:+ before), after. rewrite append_assoc. reflexivity.
Qed.

End Alert.

(** What the alert of a mismatch says: the height of the event and the
    lines of the records cached before it. *)
Lemma mismatch_alert_text (rootCache : gmap Z (list RootHashRecord.t))
    (e : LogData.t) (prev : list RootHashRecord.t) (r : RootHashRecord.t) :
  rootCache !! LogData.Height e = Some prev ->
  r ∈ prev -> RootHashRecord.Root r ≠ LogData.Root e ->
  handleCommit rootCache e
  = (statusEffects e
       ++ [PostToDiscord ("@erwanor : " +:+ "ROOT MISMATCH DETECTED AT BLOCK "
                            +:+ itoa (LogData.Height e) +:+ nl
                            +:+ knownRootHashesString prev);
           LogFatal ("ROOT MISMATCH DETECTED AT BLOCK " +:+ itoa (LogData.Height e)
                       +:+ nl +:+ knownRootHashesString prev)],
     Exited 1).
Proof.
  intros Hl Hin Hne.
  rewrite (handleCommit_mismatch rootCache e prev Hl).
  2:{ rewrite Forall_forall. intros Hall. apply Hne, Hall, Hin. }
  unfold mismatchEffects, disc_msg, err_str. rewrite !append_assoc. reflexivity.
Qed.

(** C5 on the example of the specification: nodeA and nodeB report [aa]
    at height 100, then nodeC reports [bb].  The alert names the height
    and the two cached pairs; neither the pod nor the root of the event
    that diverges occurs in it. *)
Theorem mismatch_alert_omits_incoming_record :
  let events := [commitEvent 100 "aa" "nodeA"; commitEvent 100 "aa" "nodeB";
                 commitEvent 100 "bb" "nodeC"] in
  let alert := "ROOT MISMATCH DETECTED AT BLOCK 100" +:+ nl
                 +:+ "nodeA: aa" +:+ nl +:+ "nodeB: aa" +:+ nl in
  runCommits ∅ events
  = (statusOutput events ++ [PostToDiscord ("@erwanor : " +:+ alert); LogFatal alert],
     Exited 1)
  /\ String.index 0 "nodeC" alert = None
  /\ String.index 0 "bb" alert = None.
Proof. vm_compute. auto. Qed.

(** ** The revision kept as [src/main.go] *)

(** C10 at a failing input: two reports at height 5 set [confirmedHeight]
    to 5; a first report at height 3 is cached alone; the second report at
    height 3 takes the chain-restart branch, which reads [prev[1]] of a
    list of length 1. *)
Theorem chain_restart_reads_past_the_end :
  let events := [commitEvent 5 "aa" "nodeA"; commitEvent 5 "aa" "nodeB";
                 commitEvent 3 "cc" "nodeA"; commitEvent 3 "cc" "nodeB"] in
  MainGo.runCommits ∅ 0 (take 3 events)
  = (statusOutput (take 3 events),
     MainGo.Running {[ 5 := [RootHashRecord.mk "nodeA" "aa"; RootHashRecord.mk "nodeB" "aa"];
                       3 := [RootHashRecord.mk "nodeA" "cc"] ]} 5)
  /\ MainGo.runCommits ∅ 0 events = (statusOutput events, MainGo.Panicked 1 1).
Proof. vm_compute. auto. Qed.

(** The current revision has no such branch and accepts the same events. *)
Example current_revision_accepts_the_same_events :
  runCommits ∅ [commitEvent 5 "aa" "nodeA"; commitEvent 5 "aa" "nodeB";
                commitEvent 3 "cc" "nodeA"; commitEvent 3 "cc" "nodeB"]
  = (statusOutput [commitEvent 5 "aa" "nodeA"; commitEvent 5 "aa" "nodeB";
                   commitEvent 3 "cc" "nodeA"; commitEvent 3 "cc" "nodeB"],
     Running {[ 5 := [RootHashRecord.mk "nodeA" "aa"; RootHashRecord.mk "nodeB" "aa"];
                3 := [RootHashRecord.mk "nodeA" "cc"; RootHashRecord.mk "nodeB" "cc"] ]}).
Proof. vm_compute. reflexivity. Qed.

(** In [src/main.go] a differing root below [confirmedHeight] is taken for
    a chain restart: the cache is replaced and the loop goes on.  The
    current revision stops on the same events. *)
Example MainGo_restart_replaces_the_cache :
  let events := [commitEvent 3 "aa" "nodeA"; commitEvent 3 "aa" "nodeB";
                 commitEvent 5 "cc" "nodeA"; commitEvent 5 "cc" "nodeB";
                 commitEvent 3 "bb" "nodeC"] in
  snd (MainGo.runCommits ∅ 0 events)
  = MainGo.Running {[ 3 := [RootHashRecord.mk "nodeC" "bb"] ]} 5
  /\ snd (runCommits ∅ events) = Exited 1.
Proof. vm_compute. auto. Qed.

(** In [src/main.go] the chain-restart branch cannot get through with
    fewer than two cached records at the height of the event. *)
Lemma MainGo_restart_needs_two_records (rootCache : gmap Z (list RootHashRecord.t))
    (confirmedHeight : Z) (e : LogData.t) (prev : list RootHashRecord.t) :
  rootCache !! LogData.Height e = Some prev ->
  LogData.Height e < confirmedHeight ->
  (length prev < 2)%nat ->
  exists index,
    MainGo.handleCommit rootCache confirmedHeight e
    = (MainGo.statusEffects e, MainGo.Panicked index (length prev)).
Proof.
  intros Hl Hlt Hlen. unfold MainGo.handleCommit. rewrite Hl.
  apply Z.ltb_lt in Hlt. rewrite Hlt.
  destruct prev as [|p0 [|p1 prev]]; simpl in *.
  - exists 0%nat. reflexivity.
  - exists 1%nat. reflexivity.
  - lia.
Qed.

(** Leading zeros are read as Go reads them. *)
Example decimal_examples :
  decimal "42" = 42 /\ decimal "007" = 7 /\ decimal "9223372036854775808" = maxInt + 1.
Proof. repeat split. Qed.

(** * Further properties of the current revision *)

(** ** Which sequences are accepted *)

Section Acceptance.
Implicit Types (rootCache : gmap Z (list RootHashRecord.t)).
Implicit Types (e : LogData.t) (events : list LogData.t).

Lemma accepted_conflictFree events : accepted events <-> conflictFree events.
Proof.
  split.
  - intros (out & c & Hrun).
    exact (run_running_conflictFree events ∅ [] out c
             represents_empty conflictFree_nil Hrun).
  - intros Hcf. destruct (run_accept events ∅ [] represents_empty Hcf) as (c & Hrun & _).
    exists (statusOutput events), c. exact Hrun.
Qed.

Lemma accepted_represents events out rootCache :
  runCommits ∅ events = (out, Running rootCache) ->
  conflictFree events /\ represents rootCache events /\ out = statusOutput events.
Proof.
  intros Hrun.
  assert (Hcf : conflictFree events).
  { apply accepted_conflictFree. exists out, rootCache. exact Hrun. }
  destruct (run_accept events ∅ [] represents_empty Hcf) as (c & Hrun' & Hrep).
  rewrite Hrun in Hrun'. injection Hrun' as -> <-. auto.
Qed.

Lemma conflictFree_Permutation events events' :
  events ≡ₚ events' -> conflictFree events -> conflictFree events'.
Proof.
  intros Hperm Hcf e1 e2 H1 H2. rewrite <- Hperm in H1, H2. apply Hcf; assumption.
Qed.

Lemma eventsAt_Permutation h events events' :
  events ≡ₚ events' -> eventsAt h events ≡ₚ eventsAt h events'.
Proof. intros Hperm. unfold eventsAt. rewrite Hperm. reflexivity. Qed.

Lemma eventsAt_filter h events :
  eventsAt h (filter (fun e => LogData.Height e = h) events) = eventsAt h events.
Proof.
  unfold eventsAt. f_equal. induction events as [|e events IH]; [reflexivity|].
  rewrite filter_cons. destruct (decide (LogData.Height e = h)) as [Hh|Hh].
  - rewrite !filter_cons_True by exact Hh. rewrite IH. reflexivity.
  - exact IH.
Qed.

End Acceptance.

(** X1.  The run from the empty cache gets through a sequence exactly
    when no two of its events report different roots at one height; in
    every other case it ends in [log.Fatal] with status 1. *)
Theorem accepted_iff_no_conflict (events : list LogData.t) :
  (accepted events
   <-> forall e1 e2, e1 ∈ events -> e2 ∈ events ->
         LogData.Height e1 = LogData.Height e2 -> LogData.Root e1 = LogData.Root e2)
  /\ (~ accepted events <-> snd (runCommits ∅ events) = Exited 1).
Proof.
  split; [apply accepted_conflictFree|].
  destruct (runCommits ∅ events) as [out [c|code]] eqn:Hrun; simpl.
  - split; [|discriminate]. intros Hno. destruct Hno. exists out, c. exact Hrun.
  - assert (Hno : ~ accepted events).
    { intros (out' & c & Hrun'). rewrite Hrun in Hrun'. discriminate. }
    split; [|intros _; exact Hno]. intros _.
    rewrite accepted_conflictFree in Hno.
    destruct (first_clash events [] conflictFree_nil Hno) as (pre & e & post & -> & Hcf & Hcl).
    rewrite (run_reject pre e post ∅ [] represents_empty Hcf Hcl) in Hrun.
    injection Hrun as _ <-. reflexivity.
Qed.

(** X2.  Arrival order does not change the verdict: every reordering of
    an accepted sequence is accepted, caches the same heights, and under
    each height holds the same records up to their order. *)
Theorem accepted_in_any_order (events events' : list LogData.t) (out : list Effect)
    (rootCache : gmap Z (list RootHashRecord.t)) :
  events ≡ₚ events' ->
  runCommits ∅ events = (out, Running rootCache) ->
  exists out' rootCache',
    runCommits ∅ events' = (out', Running rootCache')
    /\ out ≡ₚ out'
    /\ forall h,
         match rootCache !! h, rootCache' !! h with
         | Some prev, Some prev' => prev ≡ₚ prev'
         | None, None => True
         | _, _ => False
         end.
Proof.
  intros Hperm Hrun. apply accepted_represents in Hrun as (Hcf & Hrep & ->).
  pose proof (conflictFree_Permutation _ _ Hperm Hcf) as Hcf'.
  destruct (run_accept events' ∅ [] represents_empty Hcf') as (c' & Hrun' & Hrep').
  exists (statusOutput events'), c'. split; [exact Hrun'|]. split.
  - unfold statusOutput. rewrite !flat_map_concat_map, Hperm. reflexivity.
  - intros h. rewrite (Hrep h), (Hrep' h). unfold groupAt. cbn [app].
    pose proof (eventsAt_Permutation h _ _ Hperm) as Hp.
    destruct (eventsAt h events) as [|r l], (eventsAt h events') as [|r' l'];
      try exact I; try exact Hp.
    + apply Permutation_nil_l in Hp. discriminate.
    + apply Permutation_nil_r in Hp. discriminate.
Qed.

Lemma accepted_in_any_order_witness :
  let events := [commitEvent 7 "ab" "nodeA"; commitEvent 8 "cd" "nodeA";
                 commitEvent 7 "ab" "nodeB"] in
  let events' := [commitEvent 7 "ab" "nodeB"; commitEvent 7 "ab" "nodeA";
                  commitEvent 8 "cd" "nodeA"] in
  exists out' rootCache',
    runCommits ∅ events' = (out', Running rootCache')
    /\ statusOutput events ≡ₚ out'
    /\ forall h,
         match ({[ 7 := [RootHashRecord.mk "nodeA" "ab"; RootHashRecord.mk "nodeB" "ab"];
                   8 := [RootHashRecord.mk "nodeA" "cd"] ]}
                  : gmap Z (list RootHashRecord.t)) !! h, rootCache' !! h with
         | Some prev, Some prev' => prev ≡ₚ prev'
         | None, None => True
         | _, _ => False
         end.
Proof.
  intros events events'.
  refine (accepted_in_any_order events events' _ _ _ _).
  - unfold events, events'.
    apply (Permutation_trans (perm_skip _ (perm_swap _ _ _))). apply perm_swap.
  - vm_compute. reflexivity.
Defined.

(** X3.  Heights are reconciled one by one: a sequence is accepted exactly
    when, for every height, the events at that height alone are accepted,
    and the list cached under a height is the one those events alone
    would have produced. *)
Theorem accepted_height_by_height (events : list LogData.t) :
  (accepted events
   <-> forall h, accepted (filter (fun e => LogData.Height e = h) events))
  /\ forall h out rootCache out_h rootCache_h,
       runCommits ∅ events = (out, Running rootCache) ->
       runCommits ∅ (filter (fun e => LogData.Height e = h) events)
       = (out_h, Running rootCache_h) ->
       rootCache !! h = rootCache_h !! h.
Proof.
  split.
  - rewrite accepted_conflictFree. split.
    + intros Hcf h. apply accepted_conflictFree. intros e1 e2 H1 H2.
      apply list_elem_of_filter in H1 as [_ H1], H2 as [_ H2]. apply Hcf; assumption.
    + intros Hall e1 e2 H1 H2 Hh.
      specialize (Hall (LogData.Height e1)). apply accepted_conflictFree in Hall.
      apply Hall; [| |exact Hh]; apply list_elem_of_filter; auto.
  - intros h out c out_h c_h Hrun Hrun_h.
    apply accepted_represents in Hrun as (_ & Hrep & _).
    apply accepted_represents in Hrun_h as (_ & Hrep_h & _).
    rewrite (Hrep h), (Hrep_h h). unfold groupAt. rewrite eventsAt_filter. reflexivity.
Qed.

(** ** Nothing is dropped, nothing is merged *)

Section Growth.
Implicit Types (rootCache : gmap Z (list RootHashRecord.t)).
Implicit Types (e : LogData.t) (events : list LogData.t).

Lemma totalRecords_insert_fresh rootCache h (records : list RootHashRecord.t) :
  rootCache !! h = None ->
  totalRecords (<[h := records]> rootCache)
  = (length records + totalRecords rootCache)%nat.
Proof.
  intros Hnone. unfold totalRecords.
  apply (map_fold_insert_L (fun _ (l : list RootHashRecord.t) n => (length l + n)%nat));
    [|exact Hnone].
  intros. lia.
Qed.

Lemma totalRecords_insert rootCache h (prev records : list RootHashRecord.t) :
  rootCache !! h = Some prev ->
  (totalRecords (<[h := records]> rootCache) + length prev
   = totalRecords rootCache + length records)%nat.
Proof.
  intros Hsome.
  rewrite <- (insert_delete_eq rootCache h records).
  rewrite <- (insert_delete_id rootCache h prev Hsome) at 2.
  rewrite !totalRecords_insert_fresh by apply lookup_delete_eq. lia.
Qed.

Lemma totalRecords_step rootCache e out rootCache' :
  handleCommit rootCache e = (out, Running rootCache') ->
  totalRecords rootCache' = S (totalRecords rootCache).
Proof.
  unfold handleCommit. destruct (rootCache !! LogData.Height e) as [prev|] eqn:Hl.
  - destruct (consistentRecords (recordOf e) prev); [|discriminate]. simpl.
    intros [= _ <-].
    pose proof (totalRecords_insert rootCache _ prev (prev ++ [recordOf e]) Hl) as H.
    rewrite length_app in H. simpl in H. lia.
  - intros [= _ <-]. rewrite totalRecords_insert_fresh by exact Hl. reflexivity.
Qed.

End Growth.

(** X4.  The cache never evicts and never merges: after a run that does
    not exit it holds as many records as it held before plus one per
    event, duplicates included. *)
Theorem cache_grows_by_one_per_event (events : list LogData.t) :
  forall (rootCache rootCache' : gmap Z (list RootHashRecord.t)) (out : list Effect),
    runCommits rootCache events = (out, Running rootCache') ->
    totalRecords rootCache' = (totalRecords rootCache + length events)%nat.
Proof.
  induction events as [|e events IH]; intros c c' out; simpl.
  - intros [= _ <-]. lia.
  - destruct (handleCommit c e) as [o [c1|code]] eqn:Hstep; [|discriminate].
    destruct (runCommits c1 events) as [o1 p1] eqn:Hrun. intros [= _ ->].
    rewrite (IH c1 c' o1 Hrun), (totalRecords_step c e o c1 Hstep). lia.
Qed.

Lemma cache_grows_by_one_per_event_witness :
  let events := [commitEvent 200 "cc" "nodeA"; commitEvent 200 "cc" "nodeA";
                 commitEvent 201 "dd" "nodeA"] in
  totalRecords
    ({[ 200 := [RootHashRecord.mk "nodeA" "cc"; RootHashRecord.mk "nodeA" "cc"];
        201 := [RootHashRecord.mk "nodeA" "dd"] ]} : gmap Z (list RootHashRecord.t))
  = (totalRecords (∅ : gmap Z (list RootHashRecord.t)) + 3)%nat.
Proof.
  intros events.
  refine (cache_grows_by_one_per_event events ∅ _ (statusOutput events) _).
  vm_compute. reflexivity.
Defined.

(** ** What an accepted run prints *)

Section Output.
Implicit Types (e : LogData.t) (events : list LogData.t).

Lemma countEffects_statusOutput_cons f e events :
  countEffects f (statusOutput (e :: events))
  = (countEffects f (statusEffects e) + countEffects f (statusOutput events))%nat.
Proof.
  change (statusOutput (e :: events)) with (statusEffects e ++ statusOutput events).
  apply countEffects_app.
Qed.

End Output.

(** X5.  A run that does not exit logs exactly one status line per event
    and posts exactly one notice per event whose height leaves remainder 0
    modulo 1000; it posts nothing else. *)
Theorem accepted_run_output_counts (events : list LogData.t) (out : list Effect)
    (rootCache : gmap Z (list RootHashRecord.t)) :
  runCommits ∅ events = (out, Running rootCache) ->
  countEffects isLogPrint out = length events
  /\ countEffects isPost out
     = length (filter (fun e => Z.rem (LogData.Height e) 1000 = 0) events)
  /\ discordPosts out
     = discord_msg <$> filter (fun e => Z.rem (LogData.Height e) 1000 = 0) events.
Proof.
  intros Hrun. apply accepted_represents in Hrun as (_ & _ & ->).
  clear rootCache. induction events as [|e events (IH1 & IH2 & IH3)].
  - repeat split.
  - rewrite !countEffects_statusOutput_cons, IH1, IH2.
    change (statusOutput (e :: events)) with (statusEffects e ++ statusOutput events).
    unfold discordPosts in *. rewrite omap_app, IH3. rewrite filter_cons.
    unfold statusEffects, progressDue, heightModulus.
    destruct (decide (Z.rem (LogData.Height e) 1000 = 0)) as [Hd|Hd].
    + rewrite Hd. repeat split.
    + apply Z.eqb_neq in Hd. rewrite Hd. repeat split.
Qed.

Lemma accepted_run_output_counts_witness :
  let events := [commitEvent 1999 "ab" "nodeA"; commitEvent 2000 "cd" "nodeA";
                 commitEvent 2000 "cd" "nodeB"] in
  countEffects isLogPrint (statusOutput events) = 3%nat
  /\ countEffects isPost (statusOutput events)
     = length (filter (fun e => Z.rem (LogData.Height e) 1000 = 0) events)
  /\ discordPosts (statusOutput events)
     = discord_msg <$> filter (fun e => Z.rem (LogData.Height e) 1000 = 0) events.
Proof.
  intros events.
  refine (accepted_run_output_counts events (statusOutput events) _ _).
  vm_compute. reflexivity.
Defined.

(** ** What the extractor can return *)

Section ExtractorResults.
Implicit Types (s line pre rest : string).

Local Arguments String.append !_ _ / : simpl nomatch.

(** The match that [FindStringSubmatch] returns is the leftmost one. *)
Lemma FindStringSubmatch_Some_leftmost s : forall m,
  FindStringSubmatch s = Some m ->
  exists pre rest,
    s = pre +:+ rest /\ matchHere rest = Some m
    /\ forall pre1 pre2, pre = pre1 +:+ pre2 -> pre2 ≠ EmptyString ->
         matchHere (pre2 +:+ rest) = None.
Proof.
  induction s as [|a s IH]; intros m; rewrite FindStringSubmatch_unfold.
  - destruct (matchHere EmptyString) eqn:E; [|discriminate].
    intros [= <-]. exists EmptyString, EmptyString. repeat split; [exact E|].
    intros pre1 pre2 Hpre Hne. destruct pre1, pre2; try discriminate Hpre. contradiction.
  - destruct (matchHere (String a s)) eqn:E.
    + intros [= <-]. exists EmptyString, (String a s). repeat split; [exact E|].
      intros pre1 pre2 Hpre Hne. destruct pre1, pre2; try discriminate Hpre. contradiction.
    + intros H. destruct (IH m H) as (pre & rest & -> & Hm & Hleft).
      exists (String a pre), rest. repeat split; [exact Hm|].
      intros pre1 pre2 Hpre Hne. destruct pre1 as [|b pre1]; simpl in Hpre.
      * subst pre2. exact E.
      * injection Hpre as _ ->. apply (Hleft pre1 pre2); [reflexivity | exact Hne].
Qed.

Lemma Atoi_digits_inl s v :
  run isDigit s -> Atoi s = inl v -> v = decimal s /\ 0 <= v <= maxInt.
Proof.
  intros Hrun. rewrite (Atoi_digits s Hrun).
  destruct (decimal s <=? maxInt) eqn:Hle; [|discriminate].
  intros [= <-]. apply Z.leb_le in Hle. split; [reflexivity|]. split; [|exact Hle].
  destruct Hrun as [_ Hall]. apply digitsValue_nonneg; [exact Hall | lia].
Qed.

Lemma Atoi_digits_inr s err :
  run isDigit s -> Atoi s = inr err -> err = ErrRange /\ maxInt < decimal s.
Proof.
  intros Hrun. rewrite (Atoi_digits s Hrun).
  destruct (decimal s <=? maxInt) eqn:Hle; [discriminate|].
  intros [= <-]. apply Z.leb_gt in Hle. auto.
Qed.

(** Every event comes from the leftmost match and carries its fields. *)
Lemma parseCommitLog_inl podName line commitLog :
  parseCommitLog podName line = inl commitLog ->
  exists pre ws height hash root numTxs post,
    line = pre +:+ commitLine ws height hash root numTxs post
    /\ fields ws height hash root numTxs
    /\ leftmost pre (commitLine ws height hash root numTxs post)
    /\ noDigitAhead post
    /\ commitLog = LogData.mk (decimal height) hash root (decimal numTxs) podName
    /\ 0 <= decimal height <= maxInt /\ 0 <= decimal numTxs <= maxInt.
Proof.
  unfold parseCommitLog.
  destruct (FindStringSubmatch line) as [[[[m1 m2] m3] m4]|] eqn:Hfind; [|discriminate].
  apply FindStringSubmatch_Some_leftmost in Hfind as (pre & rest & -> & Hm & Hleft).
  apply matchHere_sound in Hm as (ws & post & Hf & Hpost & ->).
  pose proof Hf as (_ & Hh & _ & _ & Hn).
  destruct (Atoi m1) as [height|] eqn:E1; [|discriminate].
  destruct (Atoi m4) as [numTxs|] eqn:E4; [|discriminate].
  apply (Atoi_digits_inl m1 height Hh) in E1 as [-> Hr1].
  apply (Atoi_digits_inl m4 numTxs Hn) in E4 as [-> Hr4].
  intros [= <-]. exists pre, ws, m1, m2, m3, m4, post.
  split; [reflexivity|]. split; [exact Hf|]. split.
  { intros pre1 pre2 Hpre Hne Hstart. apply startsCommit_matchHere in Hstart.
    apply Hstart, (Hleft pre1 pre2 Hpre Hne). }
  split; [exact Hpost|]. split; [reflexivity|]. split; assumption.
Qed.

End ExtractorResults.

(** X6.  Whatever event the extractor returns was written in the line: it
    is read off the leftmost match of the pattern, its height and number
    of transactions lie between 0 and [2^63 - 1], its hash and root are
    non-empty runs of hex digits, and its pod name is the one passed in. *)
Theorem parseCommitLog_event_is_in_the_line (podName line : string)
    (commitLog : LogData.t) :
  parseCommitLog podName line = inl commitLog ->
  (exists pre ws height hash root numTxs post,
     line = pre +:+ commitLine ws height hash root numTxs post
     /\ fields ws height hash root numTxs
     /\ leftmost pre (commitLine ws height hash root numTxs post)
     /\ noDigitAhead post
     /\ commitLog = LogData.mk (decimal height) hash root (decimal numTxs) podName)
  /\ 0 <= LogData.Height commitLog <= maxInt
  /\ 0 <= LogData.NumTxs commitLog <= maxInt
  /\ run isHex (LogData.Hash commitLog)
  /\ run isHex (LogData.Root commitLog)
  /\ LogData.PodName commitLog = podName.
Proof.
  intros Hparse.
  destruct (parseCommitLog_inl _ _ _ Hparse)
    as (pre & ws & height & hash & root & numTxs & post & Hline & Hf & Hleft & Hpost
        & -> & Hr1 & Hr2).
  split; [exists pre, ws, height, hash, root, numTxs, post; auto|].
  destruct Hf as (_ & _ & Hhash & Hroot & _). simpl. auto.
Qed.

Lemma parseCommitLog_event_is_in_the_line_witness :
  let line :=
    "E[2023] finalizing commit of block module=consensus height=42 hash=deadbeef root=cafebabe num_txs=3 ok" in
  let commitLog := LogData.mk 42 "deadbeef" "cafebabe" 3 "nodeA" in
  parseCommitLog "nodeA" line = inl commitLog
  /\ 0 <= LogData.Height commitLog <= maxInt
  /\ 0 <= LogData.NumTxs commitLog <= maxInt
  /\ run isHex (LogData.Hash commitLog)
  /\ run isHex (LogData.Root commitLog)
  /\ LogData.PodName commitLog = "nodeA".
Proof.
  intros line commitLog.
  assert (Hparse : parseCommitLog "nodeA" line = inl commitLog) by reflexivity.
  split; [exact Hparse|].
  exact (proj2 (parseCommitLog_event_is_in_the_line "nodeA" line commitLog Hparse)).
Defined.

(** X7.  The extractor fails in three ways only: "no match", or a height
    or a number of transactions above [2^63 - 1]; a matched number is
    never rejected for its syntax. *)
Theorem parseCommitLog_errors (podName line : string) (err : ParseError) :
  parseCommitLog podName line = inr err ->
  (err = NoMatch /\ ~ matchesGrammar line)
  \/ (err = ParsingHeight ErrRange /\ matchesGrammar line)
  \/ (err = ParsingNumTxs ErrRange /\ matchesGrammar line).
Proof.
  unfold parseCommitLog.
  destruct (FindStringSubmatch line) as [[[[m1 m2] m3] m4]|] eqn:Hfind.
  - apply FindStringSubmatch_Some in Hfind as (pre & rest & Hline & Hm).
    assert (Hg : matchesGrammar line).
    { exists pre, rest. split; [exact Hline|]. apply startsCommit_matchHere. congruence. }
    apply matchHere_sound in Hm as (ws & post & (_ & Hh & _ & _ & Hn) & _ & _).
    destruct (Atoi m1) as [height|e1] eqn:E1.
    + destruct (Atoi m4) as [numTxs|e4] eqn:E4; [discriminate|].
      apply (Atoi_digits_inr m4 e4 Hn) in E4 as [-> _]. intros [= <-]. auto.
    + apply (Atoi_digits_inr m1 e1 Hh) in E1 as [-> _]. intros [= <-]. auto.
  - intros [= <-]. left. split; [reflexivity|].
    apply FindStringSubmatch_grammar. exact Hfind.
Qed.

Lemma parseCommitLog_errors_witness :
  (ParsingNumTxs ErrRange = NoMatch
   /\ ~ matchesGrammar
        "finalizing commit of block module=consensus height=1 hash=a root=b num_txs=9223372036854775808")
  \/ (ParsingNumTxs ErrRange = ParsingHeight ErrRange
      /\ matchesGrammar
           "finalizing commit of block module=consensus height=1 hash=a root=b num_txs=9223372036854775808")
  \/ (ParsingNumTxs ErrRange = ParsingNumTxs ErrRange
      /\ matchesGrammar
           "finalizing commit of block module=consensus height=1 hash=a root=b num_txs=9223372036854775808").
Proof.
  apply (parseCommitLog_errors "nodeA"). vm_compute. reflexivity.
Defined.

(** ** Numbers written with [%d] are read back by [Atoi] *)

Section Decimal.
Implicit Types (d : Decimal.uint) (p : positive).

Lemma allChars_string_of_uint d :
  allChars isDigit (NilEmpty.string_of_uint d) = true.
Proof. induction d; simpl; try rewrite IHd; reflexivity. Qed.

Lemma digitsValue_of_uint_acc d : forall p,
  digitsValue (Z.pos p) (NilEmpty.string_of_uint d) = Z.pos (Pos.of_uint_acc d p).
Proof.
  induction d; intros p; simpl; [reflexivity|..];
    rewrite <- IHd; f_equal; unfold digitVal; simpl; lia.
Qed.

Lemma digitsValue_of_uint d :
  digitsValue 0 (NilEmpty.string_of_uint d) = Z.of_N (Pos.of_uint d).
Proof.
  induction d; simpl; [reflexivity | exact IHd |..];
    apply (digitsValue_of_uint_acc d).
Qed.

Lemma itoa_digits (n : Z) : 0 <= n -> run isDigit (itoa n) /\ decimal (itoa n) = n.
Proof.
  intros Hn. destruct n as [|p|p];
    [split; [split; [discriminate | reflexivity] | reflexivity] | | lia].
  unfold itoa, decimal. simpl. split; [split|].
  - pose proof (Unsigned.to_uint_nonnil p) as Hnil.
    destruct (Pos.to_uint p); [contradiction|..]; discriminate.
  - apply allChars_string_of_uint.
  - rewrite digitsValue_of_uint, Unsigned.of_to. reflexivity.
Qed.

End Decimal.

(** X8.  A commit line written the way CometBFT writes it, with the
    numbers in decimal, is read back as the event it describes: for a
    height and a number of transactions between 0 and [2^63 - 1] and
    non-empty hex strings, parsing the rendered line returns exactly
    those four fields and the pod name. *)
Theorem parseCommitLog_reads_back_rendered_line (podName hash root : string)
    (height numTxs : Z) :
  0 <= height <= maxInt -> 0 <= numTxs <= maxInt ->
  run isHex hash -> run isHex root ->
  parseCommitLog podName (renderCommit height hash root numTxs)
  = inl (LogData.mk height hash root numTxs podName).
Proof.
  intros [Hh0 Hh1] [Hn0 Hn1] Hhash Hroot.
  destruct (itoa_digits height Hh0) as [Hhd Hhv], (itoa_digits numTxs Hn0) as [Hnd Hnv].
  assert (Hf : fields " " (itoa height) hash root (itoa numTxs)).
  { split; [split; [discriminate | reflexivity]|].
    exact (conj Hhd (conj Hhash (conj Hroot Hnd))). }
  unfold parseCommitLog, renderCommit.
  change (commitLine " " (itoa height) hash root (itoa numTxs) EmptyString)
    with (EmptyString +:+ commitLine " " (itoa height) hash root (itoa numTxs) EmptyString).
  rewrite (FindStringSubmatch_leftmost EmptyString _ (itoa height, hash, root, itoa numTxs)).
  - rewrite (Atoi_digits _ Hhd), (Atoi_digits _ Hnd), Hhv, Hnv.
    apply Z.leb_le in Hh1, Hn1. rewrite Hh1, Hn1. reflexivity.
  - intros pre1 pre2 Hpre Hne. destruct pre1, pre2; try discriminate Hpre. contradiction.
  - apply matchHere_complete; [exact Hf | exact I].
Qed.

Lemma parseCommitLog_reads_back_rendered_line_witness :
  parseCommitLog "nodeA" (renderCommit 42 "deadbeef" "cafebabe" 3)
  = inl (LogData.mk 42 "deadbeef" "cafebabe" 3 "nodeA").
Proof.
  apply parseCommitLog_reads_back_rendered_line.
  - vm_compute. split; discriminate.
  - vm_compute. split; discriminate.
  - split; [discriminate | reflexivity].
  - split; [discriminate | reflexivity].
Defined.

(** ** The tm worker over raw log entries *)

Section Worker.
Implicit Types (rootCache : gmap Z (list RootHashRecord.t)).
Implicit Types (logEntry : LogEntry.t) (commitLogs noise : list LogEntry.t).

Lemma runCommits_exit_iff (events : list LogData.t) :
  snd (runCommits ∅ events) = Exited 1 <-> ~ conflictFree events.
Proof.
  rewrite <- accepted_conflictFree. split.
  - intros Hexit (out & c & Hrun). rewrite Hrun in Hexit. discriminate.
  - intros Hno. rewrite accepted_conflictFree in Hno.
    destruct (first_clash events [] conflictFree_nil Hno) as (pre & e & post & -> & Hcf & Hcl).
    rewrite (run_reject pre e post ∅ [] represents_empty Hcf Hcl). reflexivity.
Qed.

Lemma commitOf_None logEntry :
  commitOf logEntry = None
  <-> LogEntry.metadata logEntry !! "pod_name" = None
      \/ exists podName err,
           LogEntry.metadata logEntry !! "pod_name" = Some podName
           /\ parseCommitLog podName (LogEntry.payload logEntry) = inr err.
Proof.
  unfold commitOf. destruct (LogEntry.metadata logEntry !! "pod_name") as [podName|].
  - destruct (parseCommitLog podName (LogEntry.payload logEntry)) as [d|err] eqn:E.
    + split; [discriminate|]. intros [H|(p & err & [= <-] & H)]; [discriminate|].
      rewrite E in H. discriminate.
    + split; [|reflexivity]. intros _. right. eauto.
  - split; auto.
Qed.

Lemma omap_commitOf_noise noise :
  (forall logEntry, logEntry ∈ noise -> commitOf logEntry = None) ->
  omap commitOf noise = [].
Proof.
  induction noise as [|logEntry noise IH]; intros Hall; [reflexivity|].
  cbn [omap list_omap]. rewrite (Hall logEntry) by apply list_elem_of_here.
  apply IH. intros le Hin. apply Hall, list_elem_of_further, Hin.
Qed.

End Worker.

(** X9.  Entries that carry no commit event leave no trace: wherever
    entries without a [pod_name] label, or whose payload the extractor
    rejects, are mixed into the stream, the tm worker prints, caches and
    decides what it would without them. *)
Theorem tm_worker_skips_noise (rootCache : gmap Z (list RootHashRecord.t))
    (before noise after : list LogEntry.t) :
  (forall logEntry, logEntry ∈ noise ->
     LogEntry.metadata logEntry !! "pod_name" = None
     \/ exists podName err,
          LogEntry.metadata logEntry !! "pod_name" = Some podName
          /\ parseCommitLog podName (LogEntry.payload logEntry) = inr err) ->
  tmWorkerLoop rootCache (before ++ noise ++ after)
  = tmWorkerLoop rootCache (before ++ after).
Proof.
  intros Hnoise. rewrite !tmWorkerLoop_runCommits, !omap_app.
  rewrite (omap_commitOf_noise noise); [reflexivity|].
  intros logEntry Hin. apply commitOf_None, Hnoise, Hin.
Qed.

Lemma tm_worker_skips_noise_witness :
  let commit := "finalizing commit of block module=consensus height=42 hash=deadbeef root=cafebabe num_txs=3" in
  let labelled := LogEntry.mk {[ "pod_name" := "nodeA" ]} commit in
  let unlabelled := LogEntry.mk ∅ commit in
  let chatter := LogEntry.mk {[ "pod_name" := "nodeA" ]} "received proposal" in
  tmWorkerLoop ∅ ([labelled] ++ [unlabelled; chatter] ++ [labelled])
  = tmWorkerLoop ∅ ([labelled] ++ [labelled]).
Proof.
  intros commit labelled unlabelled chatter.
  apply (tm_worker_skips_noise ∅ [labelled] [unlabelled; chatter] [labelled]).
  intros logEntry Hin. apply elem_of_cons in Hin as [->|Hin].
  - left. reflexivity.
  - apply list_elem_of_singleton in Hin as ->. right.
    exists "nodeA", NoMatch. split; reflexivity.
Defined.

(** X10.  The tm worker, started with an empty cache, exits through
    [log.Fatal] exactly when two entries of its stream carry commit
    events at one height with different roots. *)
Theorem tm_worker_exits_iff_two_entries_disagree (commitLogs : list LogEntry.t) :
  snd (tmWorkerLoop ∅ commitLogs) = Exited 1
  <-> exists logEntry1 logEntry2 e1 e2,
        logEntry1 ∈ commitLogs /\ logEntry2 ∈ commitLogs
        /\ commitOf logEntry1 = Some e1 /\ commitOf logEntry2 = Some e2
        /\ LogData.Height e1 = LogData.Height e2
        /\ LogData.Root e1 ≠ LogData.Root e2.
Proof.
  rewrite tmWorkerLoop_runCommits, runCommits_exit_iff. split.
  - intros Hno.
    destruct (first_clash _ [] conflictFree_nil Hno)
      as (pre & e & post & Heq & _ & (e' & Hin' & Hh & Hne)).
    assert (Hin : e ∈ omap commitOf commitLogs).
    { rewrite Heq. apply elem_of_app. right. apply list_elem_of_here. }
    assert (Hin2 : e' ∈ omap commitOf commitLogs).
    { rewrite Heq. apply elem_of_app. left. exact Hin'. }
    apply list_elem_of_omap in Hin as (le & Hle & Hc), Hin2 as (le' & Hle' & Hc').
    exists le', le, e', e. auto 10.
  - intros (le1 & le2 & e1 & e2 & H1 & H2 & Hc1 & Hc2 & Hh & Hne) Hcf.
    apply Hne, Hcf; [| |exact Hh]; apply list_elem_of_omap; eauto.
Qed.

(** X11.  Whatever the tm worker caches came out of a log entry: every
    cached height lies between 0 and [2^63 - 1], every cached root is a
    non-empty run of hex digits, and every cached pod name is the
    [pod_name] label of an entry of the stream. *)
Theorem tm_worker_cache_is_well_formed (commitLogs : list LogEntry.t)
    (out : list Effect) (rootCache : gmap Z (list RootHashRecord.t)) :
  tmWorkerLoop ∅ commitLogs = (out, Running rootCache) ->
  forall h prev r,
    rootCache !! h = Some prev -> r ∈ prev ->
    0 <= h <= maxInt
    /\ run isHex (RootHashRecord.Root r)
    /\ exists logEntry,
         logEntry ∈ commitLogs
         /\ LogEntry.metadata logEntry !! "pod_name" = Some (RootHashRecord.PodName r).
Proof.
  rewrite tmWorkerLoop_runCommits. intros Hrun h prev r Hl Hin.
  apply accepted_represents in Hrun as (_ & Hrep & _).
  rewrite (Hrep h) in Hl. apply groupAt_Some in Hl as [<- _].
  apply elem_of_eventsAt in Hin as (e & Hin & <- & ->).
  apply list_elem_of_omap in Hin as (logEntry & Hle & Hc).
  unfold commitOf in Hc.
  destruct (LogEntry.metadata logEntry !! "pod_name") as [podName|] eqn:Hpod;
    [|discriminate].
  destruct (parseCommitLog podName (LogEntry.payload logEntry)) as [d|] eqn:Hparse;
    [|discriminate].
  injection Hc as ->.
  destruct (parseCommitLog_inl _ _ _ Hparse)
    as (pre & ws & height & hash & root & numTxs & post & _ & Hf & _ & _ & -> & Hr & _).
  destruct Hf as (_ & _ & _ & Hroot & _). simpl.
  split; [exact Hr|]. split; [exact Hroot|]. exists logEntry. auto.
Qed.

Lemma tm_worker_cache_is_well_formed_witness :
  let commit := "finalizing commit of block module=consensus height=42 hash=deadbeef root=cafebabe num_txs=3" in
  let labelled := LogEntry.mk {[ "pod_name" := "nodeA" ]} commit in
  0 <= 42 <= maxInt
  /\ run isHex "cafebabe"
  /\ exists logEntry,
       logEntry ∈ [labelled]
       /\ LogEntry.metadata logEntry !! "pod_name" = Some "nodeA".
Proof.
  intros commit labelled.
  refine (tm_worker_cache_is_well_formed [labelled] _
            {[ 42 := [RootHashRecord.mk "nodeA" "cafebabe"] ]} _
            42 [RootHashRecord.mk "nodeA" "cafebabe"] (RootHashRecord.mk "nodeA" "cafebabe")
            _ _).
  - vm_compute. reflexivity.
  - reflexivity.
  - apply list_elem_of_here.
Defined.

(** ** The pd worker *)

(** X12.  The pd worker keeps no state and cannot stop the process: it
    emits one effect per entry, posts ["<pod>: <payload>"] for exactly the
    entries that have a [pod_name] label, in arrival order, prints its
    diagnostic for exactly the others, and two batches handled one after
    the other give the output of the whole stream. *)
Theorem pd_worker_relays_labelled_entries (errorLogs more : list LogEntry.t) :
  discordPosts (pdWorkerLoop errorLogs) = omap relayed errorLogs
  /\ length (pdWorkerLoop errorLogs) = length errorLogs
  /\ countEffects isLogPrint (pdWorkerLoop errorLogs)
     = length (filter (fun logEntry => LogEntry.metadata logEntry !! "pod_name" = None)
                 errorLogs)
  /\ countEffects isFatal (pdWorkerLoop errorLogs) = 0%nat
  /\ pdWorkerLoop (errorLogs ++ more) = pdWorkerLoop errorLogs ++ pdWorkerLoop more.
Proof.
  induction errorLogs as [|logEntry errorLogs (IH1 & IH2 & IH3 & IH4 & IH5)].
  - repeat split.
  - cbn [pdWorkerLoop app]. unfold discordPosts in *.
    rewrite omap_app, !countEffects_app, length_app, IH1, IH2, IH3, IH4, IH5, filter_cons.
    cbn [omap list_omap]. unfold handleErrorEntry, relayed.
    destruct (LogEntry.metadata logEntry !! "pod_name") as [podName|].
    + rewrite decide_False by discriminate. repeat split.
    + rewrite decide_True by reflexivity. repeat split.
Qed.

(** ** Start-up *)

(** X13.  The process starts exactly when the five variables it reads are
    all set to a non-empty value; otherwise it exits with status 1 and
    names the first one that is missing, in the order of the checks.  An
    environment the current revision accepts is also accepted by
    [src/main.go], which does not ask for [PENUMBRA_NETWORK]. *)
Theorem startup_needs_every_variable (Getenv : string -> string) :
  (startup Getenv = Started
   <-> Forall (fun name => Getenv name ≠ EmptyString)
         ["GCP_PROJECT_ID"; "DISCORD_WEBHOOK_URL"; "GOOGLE_APPLICATION_CREDENTIALS";
          "GCP_CREDENTIALS"; "PENUMBRA_NETWORK"])
  /\ (forall stdout code, startup Getenv = Refused stdout code ->
        code = 1
        /\ exists name,
             Getenv name = EmptyString
             /\ (stdout = name +:+ " is unset or empty"
                 \/ (name = "GCP_PROJECT_ID"
                     /\ stdout = "GCP PROJECT_ID is not set or empty")))
  /\ (startup Getenv = Started -> mainGoStartup Getenv = Started).
Proof.
  unfold startup, mainGoStartup.
  destruct (String.eqb_spec (Getenv "GCP_PROJECT_ID") EmptyString) as [E1|E1].
  { split; [|split]; [split; [discriminate|]| |discriminate].
    - intros H. inversion H; subst. contradiction.
    - intros stdout code [= <- <-]. split; [reflexivity|]. exists "GCP_PROJECT_ID". auto. }
  destruct (String.eqb_spec (Getenv "DISCORD_WEBHOOK_URL") EmptyString) as [E2|E2].
  { split; [|split]; [split; [discriminate|]| |discriminate].
    - intros H. inversion_clear H as [|? ? _ H']. inversion H'; subst. contradiction.
    - intros stdout code [= <- <-]. split; [reflexivity|].
      exists "DISCORD_WEBHOOK_URL". auto. }
  destruct (String.eqb_spec (Getenv "GOOGLE_APPLICATION_CREDENTIALS") EmptyString)
    as [E3|E3].
  { split; [|split]; [split; [discriminate|]| |discriminate].
    - intros H. do 2 (inversion_clear H as [|? ? _ H']; rename H' into H).
      inversion H; subst. contradiction.
    - intros stdout code [= <- <-]. split; [reflexivity|].
      exists "GOOGLE_APPLICATION_CREDENTIALS". auto. }
  destruct (String.eqb_spec (Getenv "GCP_CREDENTIALS") EmptyString) as [E4|E4].
  { split; [|split]; [split; [discriminate|]| |discriminate].
    - intros H. do 3 (inversion_clear H as [|? ? _ H']; rename H' into H).
      inversion H; subst. contradiction.
    - intros stdout code [= <- <-]. split; [reflexivity|].
      exists "GCP_CREDENTIALS". auto. }
  destruct (String.eqb_spec (Getenv "PENUMBRA_NETWORK") EmptyString) as [E5|E5].
  { split; [|split]; [split; [discriminate|]| |discriminate].
    - intros H. do 4 (inversion_clear H as [|? ? _ H']; rename H' into H).
      inversion H; subst. contradiction.
    - intros stdout code [= <- <-]. split; [reflexivity|].
      exists "PENUMBRA_NETWORK". auto. }
  split; [|split].
  - split; [|reflexivity]. intros _. repeat constructor; assumption.
  - discriminate.
  - reflexivity.
Qed.

(** ** The dump of the cached records *)

(** X14.  [knownRootHashesString] writes one line per record, in the
    order of the list: the dump of a list is the line of its first record
    followed by the dump of the rest, and the dump of two lists in a row
    is the two dumps in a row. *)
Theorem knownRootHashesString_is_line_by_line (records more : list RootHashRecord.t) :
  knownRootHashesString records
  = fold_right (fun r s => recordLine r +:+ s) EmptyString records
  /\ knownRootHashesString (records ++ more)
     = knownRootHashesString records +:+ knownRootHashesString more.
Proof.
  split.
  - induction records as [|r records IH]; [reflexivity|].
    rewrite knownRootHashesString_cons, IH. reflexivity.
  - induction records as [|r records IH]; [reflexivity|].
    cbn [app]. rewrite !knownRootHashesString_cons, IH, append_assoc. reflexivity.
Qed.

(** * Further properties of [src/main.go] *)

Section MainGoInvariant.
Implicit Types (rootCache : gmap Z (list RootHashRecord.t)) (confirmedHeight : Z).
Implicit Types (e : LogData.t) (prev : list RootHashRecord.t).

Lemma cacheInv_empty : cacheInv ∅.
Proof. intros h prev H. rewrite lookup_empty in H. discriminate. Qed.

Lemma cacheInv_singleton h (r : RootHashRecord.t) :
  cacheInv ({[ h := [r] ]} : gmap Z (list RootHashRecord.t)).
Proof.
  intros h' prev H. apply lookup_singleton_Some in H as [_ <-].
  split; [discriminate|]. intros r1 r2 H1 H2.
  apply list_elem_of_singleton in H1, H2. congruence.
Qed.

Lemma cacheInv_insert_first rootCache h (r : RootHashRecord.t) :
  cacheInv rootCache -> cacheInv (<[h := [r]]> rootCache).
Proof.
  intros Hinv h' prev H. destruct (decide (h = h')) as [<-|Hne].
  - rewrite lookup_insert_eq in H. injection H as <-.
    split; [discriminate|]. intros r1 r2 H1 H2.
    apply list_elem_of_singleton in H1, H2. congruence.
  - rewrite lookup_insert_ne in H by exact Hne. apply (Hinv h' prev H).
Qed.

Lemma cacheInv_insert_agree rootCache h prev (r : RootHashRecord.t) :
  cacheInv rootCache -> rootCache !! h = Some prev ->
  (forall r', r' ∈ prev -> RootHashRecord.Root r' = RootHashRecord.Root r) ->
  cacheInv (<[h := prev ++ [r]]> rootCache).
Proof.
  intros Hinv Hl Hall h' l H. destruct (decide (h = h')) as [<-|Hne].
  - rewrite lookup_insert_eq in H. injection H as <-. split.
    + destruct prev; discriminate.
    + assert (Hr : forall r', r' ∈ prev ++ [r] ->
                RootHashRecord.Root r' = RootHashRecord.Root r).
      { intros r' Hin. apply elem_of_app in Hin as [Hin|Hin]; [apply Hall, Hin|].
        apply list_elem_of_singleton in Hin as ->. reflexivity. }
      intros r1 r2 H1 H2. rewrite (Hr r1 H1), (Hr r2 H2). reflexivity.
  - rewrite lookup_insert_ne in H by exact Hne. apply (Hinv h' l H).
Qed.

(** On a list that carries one root, looking at its first entry is
    looking at all of them. *)
Lemma first_entry_decides rootCache h prev (r : RootHashRecord.t) :
  cacheInv rootCache -> rootCache !! h = Some prev ->
  exists p0 rest,
    prev = p0 :: rest
    /\ String.eqb (RootHashRecord.Root p0) (RootHashRecord.Root r)
       = consistentRecords r prev.
Proof.
  intros Hinv Hl. destruct (Hinv h prev Hl) as [Hne Hsame].
  destruct prev as [|p0 rest]; [contradiction|]. exists p0, rest. split; [reflexivity|].
  destruct (String.eqb_spec (RootHashRecord.Root p0) (RootHashRecord.Root r)) as [Heq|Hdiff].
  - symmetry. apply consistentRecords_Forall, Forall_forall. intros r' Hin.
    rewrite <- Heq. apply Hsame; [exact Hin | apply list_elem_of_here].
  - symmetry. apply consistentRecords_false. exists p0.
    split; [apply list_elem_of_here | exact Hdiff].
Qed.

Lemma cacheInv_handleCommit rootCache e out rootCache' :
  cacheInv rootCache -> handleCommit rootCache e = (out, Running rootCache') ->
  cacheInv rootCache'.
Proof.
  intros Hinv. unfold handleCommit.
  destruct (rootCache !! LogData.Height e) as [prev|] eqn:Hl.
  - destruct (consistentRecords (recordOf e) prev) eqn:Hc; [|discriminate].
    intros [= _ <-]. apply cacheInv_insert_agree; [exact Hinv | exact Hl|].
    apply Forall_forall. apply (consistentRecords_Forall (recordOf e)). exact Hc.
  - intros [= _ <-]. apply cacheInv_insert_first. exact Hinv.
Qed.

Lemma cacheInv_MainGo_handleCommit rootCache confirmedHeight e out rootCache' confirmedHeight' :
  cacheInv rootCache ->
  MainGo.handleCommit rootCache confirmedHeight e
  = (out, MainGo.Running rootCache' confirmedHeight') ->
  cacheInv rootCache' /\ confirmedHeight <= confirmedHeight'.
Proof.
  intros Hinv. unfold MainGo.handleCommit.
  destruct (rootCache !! LogData.Height e) as [prev|] eqn:Hl.
  - destruct (LogData.Height e <? confirmedHeight) eqn:Hlt.
    + destruct (prev !! 0%nat); [|discriminate].
      destruct (prev !! 1%nat); [|discriminate].
      intros [= _ <- <-]. split; [apply cacheInv_singleton | lia].
    + destruct (first_entry_decides rootCache _ prev (recordOf e) Hinv Hl)
        as (p0 & rest & -> & Heq).
      cbn [lookup list_lookup]. rewrite Heq.
      destruct (consistentRecords (recordOf e) (p0 :: rest)) eqn:Hc; [|discriminate].
      intros [= _ <- <-]. apply Z.ltb_ge in Hlt. split; [|exact Hlt].
      apply (cacheInv_insert_agree rootCache _ (p0 :: rest) (recordOf e) Hinv Hl).
      apply Forall_forall. apply (consistentRecords_Forall (recordOf e)). exact Hc.
  - intros [= _ <- <-]. split; [|lia]. apply cacheInv_insert_first. exact Hinv.
Qed.

Lemma cacheInv_MainGo_runCommits (events : list LogData.t) :
  forall rootCache confirmedHeight out rootCache' confirmedHeight',
    cacheInv rootCache ->
    MainGo.runCommits rootCache confirmedHeight events
    = (out, MainGo.Running rootCache' confirmedHeight') ->
    cacheInv rootCache' /\ confirmedHeight <= confirmedHeight'.
Proof.
  induction events as [|e events IH]; intros c ch out c' ch' Hinv; simpl.
  - intros [= _ <- <-]. split; [exact Hinv | lia].
  - destruct (MainGo.handleCommit c ch e) as [o [c1 ch1|code|i n]] eqn:Hstep;
      [|discriminate..].
    destruct (cacheInv_MainGo_handleCommit _ _ _ _ _ _ Hinv Hstep) as [Hinv1 Hle1].
    destruct (MainGo.runCommits c1 ch1 events) as [o1 p1] eqn:Hrun. intros [= _ ->].
    destruct (IH c1 ch1 o1 c' ch' Hinv1 Hrun) as [Hinv' Hle']. split; [exact Hinv' | lia].
Qed.

End MainGoInvariant.

(** X15.  The loop of [src/main.go] keeps the invariant of the cache
    across chain restarts as well: in every state it reaches, every cached
    list is non-empty and carries one root.  Its [confirmedHeight] starts
    at 0 and never goes down, not even when a chain restart is detected. *)
Theorem mainGo_keeps_one_root_per_height
    (rootCache : gmap Z (list RootHashRecord.t)) (confirmedHeight : Z) :
  mainGoReachable rootCache confirmedHeight ->
  (forall h prev, rootCache !! h = Some prev ->
     prev ≠ [] /\ forall r1 r2, r1 ∈ prev -> r2 ∈ prev ->
                    RootHashRecord.Root r1 = RootHashRecord.Root r2)
  /\ 0 <= confirmedHeight
  /\ forall events out rootCache' confirmedHeight',
       MainGo.runCommits rootCache confirmedHeight events
       = (out, MainGo.Running rootCache' confirmedHeight') ->
       confirmedHeight <= confirmedHeight'.
Proof.
  intros (events & out & Hrun).
  destruct (cacheInv_MainGo_runCommits events ∅ 0 out rootCache confirmedHeight
              cacheInv_empty Hrun) as [Hinv Hle].
  split; [exact Hinv|]. split; [exact Hle|].
  intros events' out' c' ch' Hrun'.
  exact (proj2 (cacheInv_MainGo_runCommits events' _ _ _ _ _ Hinv Hrun')).
Qed.

Lemma mainGo_keeps_one_root_per_height_witness :
  let rootCache : gmap Z (list RootHashRecord.t) :=
    {[ 3 := [RootHashRecord.mk "nodeC" "bb"] ]} in
  mainGoReachable rootCache 5
  /\ (forall h prev, rootCache !! h = Some prev ->
        prev ≠ [] /\ forall r1 r2, r1 ∈ prev -> r2 ∈ prev ->
                       RootHashRecord.Root r1 = RootHashRecord.Root r2)
  /\ 0 <= 5
  /\ forall events out rootCache' confirmedHeight',
       MainGo.runCommits rootCache 5 events
       = (out, MainGo.Running rootCache' confirmedHeight') ->
       5 <= confirmedHeight'.
Proof.
  intros rootCache.
  assert (Hreach : mainGoReachable rootCache 5).
  { exists [commitEvent 3 "aa" "nodeA"; commitEvent 3 "aa" "nodeB";
            commitEvent 5 "cc" "nodeA"; commitEvent 5 "cc" "nodeB";
            commitEvent 3 "bb" "nodeC"].
    eexists. vm_compute. reflexivity. }
  split; [exact Hreach|].
  exact (mainGo_keeps_one_root_per_height rootCache 5 Hreach).
Defined.

(** X16.  The loop of [src/main.go] can panic in one place only.  From a
    reachable state [prev[0]] is always there; the index that fails is
    [prev[1]] in the chain-restart branch, for an event below
    [confirmedHeight] whose height has exactly one cached record. *)
Theorem mainGo_panics_only_in_chain_restart
    (rootCache : gmap Z (list RootHashRecord.t)) (confirmedHeight : Z)
    (e : LogData.t) (out : list Effect) (index len : nat) :
  mainGoReachable rootCache confirmedHeight ->
  MainGo.handleCommit rootCache confirmedHeight e = (out, MainGo.Panicked index len) ->
  index = 1%nat /\ len = 1%nat
  /\ LogData.Height e < confirmedHeight
  /\ exists p0, rootCache !! LogData.Height e = Some [p0].
Proof.
  intros (events & out0 & Hrun).
  destruct (cacheInv_MainGo_runCommits events ∅ 0 out0 rootCache confirmedHeight
              cacheInv_empty Hrun) as [Hinv _].
  unfold MainGo.handleCommit.
  destruct (rootCache !! LogData.Height e) as [prev|] eqn:Hl; [|discriminate].
  destruct (Hinv _ _ Hl) as [Hne _].
  destruct prev as [|p0 [|p1 rest]]; [contradiction|..]; cbn [lookup list_lookup].
  - destruct (LogData.Height e <? confirmedHeight) eqn:Hlt.
    + intros [= _ <- <-]. apply Z.ltb_lt in Hlt. eauto.
    + destruct (negb _); discriminate.
  - destruct (LogData.Height e <? confirmedHeight); [discriminate|].
    destruct (negb _); discriminate.
Qed.

Lemma mainGo_panics_only_in_chain_restart_witness :
  let rootCache : gmap Z (list RootHashRecord.t) :=
    {[ 5 := [RootHashRecord.mk "nodeA" "aa"; RootHashRecord.mk "nodeB" "aa"];
       3 := [RootHashRecord.mk "nodeA" "cc"] ]} in
  let e := commitEvent 3 "cc" "nodeB" in
  mainGoReachable rootCache 5
  /\ LogData.Height e < 5
  /\ exists p0, rootCache !! LogData.Height e = Some [p0].
Proof.
  intros rootCache e.
  assert (Hreach : mainGoReachable rootCache 5).
  { exists [commitEvent 5 "aa" "nodeA"; commitEvent 5 "aa" "nodeB";
            commitEvent 3 "cc" "nodeA"].
    eexists. vm_compute. reflexivity. }
  split; [exact Hreach|].
  refine (proj2 (proj2 (mainGo_panics_only_in_chain_restart rootCache 5 e
                          (MainGo.statusEffects e) 1 1 Hreach _))).
  vm_compute. reflexivity.
Defined.

(** X17.  In [src/main.go] an event below [confirmedHeight] at a height
    with two or more cached records is never checked against them: it is
    announced as a chain restart, the whole cache is replaced by the one
    record of the event, and [confirmedHeight] stays.  The next event at
    that height then finds one cached record below [confirmedHeight] and
    the loop panics. *)
Theorem mainGo_chain_restart_then_panic
    (rootCache : gmap Z (list RootHashRecord.t)) (confirmedHeight : Z)
    (e : LogData.t) (p0 p1 : RootHashRecord.t) (rest : list RootHashRecord.t) :
  rootCache !! LogData.Height e = Some (p0 :: p1 :: rest) ->
  LogData.Height e < confirmedHeight ->
  MainGo.handleCommit rootCache confirmedHeight e
  = (MainGo.statusEffects e
       ++ [PostToDiscord (MainGo.restart_msg (LogData.Height e) confirmedHeight p0 p1)],
     MainGo.Running {[ LogData.Height e := [recordOf e] ]} confirmedHeight)
  /\ forall e2,
       LogData.Height e2 = LogData.Height e ->
       MainGo.handleCommit {[ LogData.Height e := [recordOf e] ]} confirmedHeight e2
       = (MainGo.statusEffects e2, MainGo.Panicked 1 1).
Proof.
  intros Hl Hlt. apply Z.ltb_lt in Hlt. split.
  - unfold MainGo.handleCommit. rewrite Hl, Hlt. reflexivity.
  - intros e2 Hh. unfold MainGo.handleCommit.
    rewrite Hh, lookup_singleton_eq, Hlt. reflexivity.
Qed.

Lemma mainGo_chain_restart_then_panic_witness :
  let rootCache : gmap Z (list RootHashRecord.t) :=
    {[ 3 := [RootHashRecord.mk "nodeA" "aa"; RootHashRecord.mk "nodeB" "aa"];
       5 := [RootHashRecord.mk "nodeA" "cc"; RootHashRecord.mk "nodeB" "cc"] ]} in
  let e := commitEvent 3 "bb" "nodeC" in
  snd (MainGo.handleCommit rootCache 5 e)
  = MainGo.Running {[ 3 := [RootHashRecord.mk "nodeC" "bb"] ]} 5
  /\ snd (MainGo.handleCommit {[ 3 := [RootHashRecord.mk "nodeC" "bb"] ]} 5
            (commitEvent 3 "bb" "nodeA"))
     = MainGo.Panicked 1 1.
Proof.
  intros rootCache e.
  destruct (mainGo_chain_restart_then_panic rootCache 5 e
              (RootHashRecord.mk "nodeA" "aa") (RootHashRecord.mk "nodeB" "aa") []
              eq_refl eq_refl) as [H1 H2].
  exact (conj (f_equal snd H1) (f_equal snd (H2 (commitEvent 3 "bb" "nodeA") eq_refl))).
Defined.

Section Revisions.
Implicit Types (rootCache : gmap Z (list RootHashRecord.t)) (confirmedHeight : Z).
Implicit Types (e : LogData.t) (events : list LogData.t).

Lemma snd_runCommits_cons rootCache e events :
  snd (runCommits rootCache (e :: events))
  = match snd (handleCommit rootCache e) with
    | Running rootCache' => snd (runCommits rootCache' events)
    | Exited code => Exited code
    end.
Proof.
  simpl. destruct (handleCommit rootCache e) as [o [c1|code]]; simpl; [|reflexivity].
  destruct (runCommits c1 events). reflexivity.
Qed.

Lemma snd_MainGo_runCommits_cons rootCache confirmedHeight e events :
  snd (MainGo.runCommits rootCache confirmedHeight (e :: events))
  = match snd (MainGo.handleCommit rootCache confirmedHeight e) with
    | MainGo.Running rootCache' confirmedHeight' =>
        snd (MainGo.runCommits rootCache' confirmedHeight' events)
    | p => p
    end.
Proof.
  simpl. destruct (MainGo.handleCommit rootCache confirmedHeight e) as [o [c1 ch1|code|i n]];
    simpl; [|reflexivity..].
  destruct (MainGo.runCommits c1 ch1 events). reflexivity.
Qed.

(** At or above [confirmedHeight] the two revisions take the same step. *)
Lemma mainGo_step_agrees rootCache confirmedHeight e :
  cacheInv rootCache -> confirmedHeight <= LogData.Height e ->
  match snd (handleCommit rootCache e) with
  | Running rootCache' =>
      exists confirmedHeight',
        snd (MainGo.handleCommit rootCache confirmedHeight e)
        = MainGo.Running rootCache' confirmedHeight'
        /\ confirmedHeight' <= LogData.Height e
  | Exited code =>
      snd (MainGo.handleCommit rootCache confirmedHeight e) = MainGo.Exited code
  end.
Proof.
  intros Hinv Hle. apply Z.ltb_ge in Hle as Hlt.
  unfold handleCommit, MainGo.handleCommit.
  destruct (rootCache !! LogData.Height e) as [prev|] eqn:Hl.
  - rewrite Hlt.
    destruct (first_entry_decides rootCache _ prev (recordOf e) Hinv Hl)
      as (p0 & rest & -> & Heq).
    cbn [lookup list_lookup]. rewrite Heq.
    destruct (consistentRecords (recordOf e) (p0 :: rest)); simpl.
    + eexists. split; [reflexivity | lia].
    + reflexivity.
  - simpl. eexists. split; [reflexivity | exact Hle].
Qed.

End Revisions.

(** X18.  On a stream whose heights never go down (and start at 0 or
    above) [src/main.go] never takes its chain-restart branch and never
    panics: it ends with the same verdict as the current revision and,
    when it gets through, with the same cache.  Its test of [prev[0]]
    alone then decides what [consistentRecords] decides. *)
Theorem mainGo_agrees_on_ordered_streams (events : list LogData.t) :
  nonDecreasingFrom 0 events ->
  match snd (MainGo.runCommits ∅ 0 events), snd (runCommits ∅ events) with
  | MainGo.Running rootCache _, Running rootCache' => rootCache = rootCache'
  | MainGo.Exited code, Exited code' => code = code'
  | _, _ => False
  end.
Proof.
  assert (Hgen : forall (rootCache : gmap Z (list RootHashRecord.t)) confirmedHeight low,
             cacheInv rootCache -> confirmedHeight <= low ->
             nonDecreasingFrom low events ->
             match snd (MainGo.runCommits rootCache confirmedHeight events),
                   snd (runCommits rootCache events) with
             | MainGo.Running c _, Running c' => c = c'
             | MainGo.Exited code, Exited code' => code = code'
             | _, _ => False
             end).
  { induction events as [|e events IH]; intros c ch low Hinv Hle Hord.
    - reflexivity.
    - destruct Hord as [Hlow Hord].
      rewrite snd_runCommits_cons, snd_MainGo_runCommits_cons.
      pose proof (mainGo_step_agrees c ch e Hinv ltac:(lia)) as Hstep.
      destruct (handleCommit c e) as [o [c1|code]] eqn:Hcur; simpl in Hstep |- *.
      + destruct Hstep as (ch1 & -> & Hle1).
        apply (IH c1 ch1 (LogData.Height e)); [|exact Hle1 | exact Hord].
        exact (cacheInv_handleCommit c e o c1 Hinv Hcur).
      + rewrite Hstep. reflexivity. }
  intros Hord. exact (Hgen ∅ 0 0 cacheInv_empty ltac:(lia) Hord).
Qed.

Lemma mainGo_agrees_on_ordered_streams_witness :
  let events := [commitEvent 3 "aa" "nodeA"; commitEvent 3 "aa" "nodeB";
                 commitEvent 5 "cc" "nodeA"; commitEvent 5 "dd" "nodeB"] in
  match snd (MainGo.runCommits ∅ 0 events), snd (runCommits ∅ events) with
  | MainGo.Running rootCache _, Running rootCache' => rootCache = rootCache'
  | MainGo.Exited code, Exited code' => code = code'
  | _, _ => False
  end.
Proof.
  intros events. apply (mainGo_agrees_on_ordered_streams events).
  vm_compute. repeat split; discriminate.
Defined.

(** * The tm worker in batches *)

(** X19.  The cache is all the tm worker carries from one entry to the
    next: a stream handled in two batches, the second started from the
    cache the first one left, gives the output and the end state of the
    stream handled in one go; and once a batch has ended in [log.Fatal]
    nothing that follows is looked at. *)
Theorem tm_worker_batches_compose (rootCache : gmap Z (list RootHashRecord.t))
    (batch1 batch2 : list LogEntry.t) :
  (forall out1 rootCache1 out2 p,
     tmWorkerLoop rootCache batch1 = (out1, Running rootCache1) ->
     tmWorkerLoop rootCache1 batch2 = (out2, p) ->
     tmWorkerLoop rootCache (batch1 ++ batch2) = (out1 ++ out2, p))
  /\ (forall out1 code,
        tmWorkerLoop rootCache batch1 = (out1, Exited code) ->
        tmWorkerLoop rootCache (batch1 ++ batch2) = (out1, Exited code)).
Proof.
  rewrite !tmWorkerLoop_runCommits, omap_app, runCommits_app. split.
  - intros out1 c1 out2 p H1. rewrite H1, tmWorkerLoop_runCommits.
    intros H2. rewrite H2. reflexivity.
  - intros out1 code H1. rewrite H1. reflexivity.
Qed.

Lemma tm_worker_batches_compose_witness :
  let commit := "finalizing commit of block module=consensus height=42 hash=deadbeef root=cafebabe num_txs=3" in
  let other := "finalizing commit of block module=consensus height=42 hash=deadbeef root=0badcafe num_txs=3" in
  let entryA := LogEntry.mk {[ "pod_name" := "nodeA" ]} commit in
  let entryB := LogEntry.mk {[ "pod_name" := "nodeB" ]} other in
  snd (tmWorkerLoop ∅ ([entryA] ++ [entryB])) = Exited 1.
Proof.
  intros commit other entryA entryB.
  refine (f_equal snd (proj1 (tm_worker_batches_compose ∅ [entryA] [entryB])
                         _ _ _ (Exited 1) _ _)).
  - vm_compute. reflexivity.
  - vm_compute. reflexivity.
Defined.
